(** * Hypothesis_Testing_II.ipynb: one-sample t- and z-tests

    A shallow embedding of the code cells of the notebook
    [Hypothesis_Testing_II.ipynb] and the properties of the
    hypothesis-test evaluation they implement.

    Number model.  The notebook computes with numpy [float64] scalars
    ([err = s/np.sqrt(n)] is a [np.float64], so every later quotient is a
    numpy division, which yields [inf] or [nan] with a warning instead of
    raising).  Values are modelled as exact real numbers extended with the
    IEEE special values [+inf], [-inf] and [nan]: rounding, overflow and
    the sign of zero are idealised away (every zero is [+0.0]), the
    special values are kept. *)

From Stdlib Require Import Reals Lra Lia ZArith Bool.

Open Scope R_scope.

(** ** numpy scalars *)

Inductive npfloat : Type :=
| Fin (r : R)
| PInf
| NInf
| NaN.

Definition Rsign_pos (r : R) : bool := if Rlt_dec 0 r then true else false.
Definition Rsign_neg (r : R) : bool := if Rlt_dec r 0 then true else false.
Definition Ris_zero (r : R) : bool := if Req_dec_T r 0 then true else false.

(** [x / y] on numpy scalars: [0/0] and [inf/inf] are [nan], a non-zero
    finite number over zero is an infinity. *)
Definition fdiv (x y : npfloat) : npfloat :=
  match x, y with
  | NaN, _ | _, NaN => NaN
  | Fin a, Fin b =>
      if Ris_zero b
      then if Rsign_pos a then PInf else if Rsign_neg a then NInf else NaN
      else Fin (a / b)
  | Fin _, PInf | Fin _, NInf => Fin 0
  | PInf, Fin b => if Rsign_neg b then NInf else PInf
  | NInf, Fin b => if Rsign_neg b then PInf else NInf
  | PInf, PInf | PInf, NInf | NInf, PInf | NInf, NInf => NaN
  end.

(** [x * y] on numpy scalars: [0 * inf] is [nan]. *)
Definition fmul (x y : npfloat) : npfloat :=
  match x, y with
  | NaN, _ | _, NaN => NaN
  | Fin a, Fin b => Fin (a * b)
  | Fin a, PInf | PInf, Fin a =>
      if Rsign_pos a then PInf else if Rsign_neg a then NInf else NaN
  | Fin a, NInf | NInf, Fin a =>
      if Rsign_pos a then NInf else if Rsign_neg a then PInf else NaN
  | PInf, PInf | NInf, NInf => PInf
  | PInf, NInf | NInf, PInf => NaN
  end.

(** [-x]. *)
Definition fneg (x : npfloat) : npfloat :=
  match x with
  | Fin a => Fin (- a)
  | PInf => NInf
  | NInf => PInf
  | NaN => NaN
  end.

(** [np.abs(x)] (and the builtin [abs] on a numpy scalar). *)
Definition np_abs (x : npfloat) : npfloat :=
  match x with
  | Fin a => Fin (Rabs a)
  | PInf | NInf => PInf
  | NaN => NaN
  end.

(** [np.sqrt(n)] at a Python [int]: [nan] (with a warning) below zero.
    [n] is a sample size, the [len] of a column; an integer that does not
    fit 64 bits, at which [np.sqrt] raises, is outside the model. *)
Definition np_sqrt (n : Z) : npfloat :=
  if (n <? 0)%Z then NaN else Fin (sqrt (IZR n)).

(** [x <= y]: every comparison with [nan] is [False]. *)
Definition fleb (x y : npfloat) : bool :=
  match x, y with
  | NaN, _ | _, NaN => false
  | NInf, _ => true
  | _, PInf => true
  | Fin a, Fin b => if Rle_dec a b then true else false
  | Fin _, NInf | PInf, Fin _ | PInf, NInf => false
  end.

(** The value is a number in the closed interval [[0, 1]]. *)
Definition in_unit_interval (x : npfloat) : Prop :=
  match x with
  | Fin a => 0 <= a <= 1
  | _ => False
  end.

(** ** Reference distributions ([scipy.stats])

    The notebook calls [stats.t.sf] and [stats.norm.pdf].  They are
    library functions; they are modelled by the mathematical functions they
    evaluate: the density of the standard normal distribution and the
    survival function of Student's t distribution. *)

(** Wallis integrals [W n], the integral of [cos ^ n] over [[0, PI/2]]
    (proved below as [cos_int_PI2]). *)
Fixpoint wallis (n : nat) : R :=
  match n with
  | O => PI / 2
  | S O => 1
  | S (S k) => INR (S k) / INR (S (S k)) * wallis k
  end.

(** [cos_int n x]: the antiderivative of [cos ^ n] that vanishes at [0],
    by the reduction formula. *)
Fixpoint cos_int (n : nat) (x : R) : R :=
  match n with
  | O => x
  | S O => sin x
  | S (S k) => (cos x ^ S k * sin x + INR (S k) * cos_int k x) / INR (S (S k))
  end.

(** Density of Student's t distribution with [nu] degrees of freedom,
    [(1 + x^2/nu) ^ (-(nu+1)/2) / (sqrt nu * B(1/2, nu/2))], where
    [B(1/2, nu/2) = 2 * W (nu - 1)]. *)
Definition t_pdf (nu : nat) (x : R) : R :=
  / (2 * sqrt (INR nu) * wallis (pred nu)) * (/ sqrt (1 + x² / INR nu)) ^ S nu.

(** The mass Student's t puts on [[0, x]], in closed form. *)
Definition t_half (nu : nat) (x : R) : R :=
  cos_int (pred nu) (atan (x / sqrt (INR nu))) / (2 * wallis (pred nu)).

(** Density of the standard normal distribution,
    [exp(-x**2/2) / sqrt(2*pi)]. *)
Definition normal_pdf (x : R) : R := exp (- x² / 2) / sqrt (2 * PI).

Lemma nat_ind_step2 (P : nat -> Prop) :
  P 0%nat -> P 1%nat -> (forall k, P k -> P (S (S k))) -> forall n, P n.
Proof.
  intros H0 H1 Hstep n.
  assert (H : P n /\ P (S n)).
  { induction n as [|n [IH1 IH2]]; split; auto. }
  exact (proj1 H).
Qed.

Lemma wallis_pos n : 0 < wallis n.
Proof.
  induction n as [| |k IH] using nat_ind_step2.
  - simpl. pose proof PI_RGT_0. lra.
  - simpl. lra.
  - change (0 < INR (S k) / INR (S (S k)) * wallis k).
    apply Rmult_lt_0_compat; [|exact IH].
    apply Rdiv_lt_0_compat; apply lt_0_INR; lia.
Qed.

Lemma t_pdf_cos k x :
  t_pdf (S k) x =
  / (2 * sqrt (INR (S k)) * wallis k) * cos (atan (x / sqrt (INR (S k)))) ^ S (S k).
Proof.
  assert (Hn : 0 < INR (S k)) by (apply lt_0_INR; lia).
  assert (Hs : 0 < sqrt (INR (S k))) by (apply sqrt_lt_R0; assumption).
  unfold t_pdf. simpl pred. rewrite cos_atan. f_equal. f_equal.
  replace ((x / sqrt (INR (S k)))²) with (x² / INR (S k)).
  - unfold Rdiv. ring.
  - unfold Rsqr.
    replace (x / sqrt (INR (S k)) * (x / sqrt (INR (S k))))
      with (x * x / (sqrt (INR (S k)) * sqrt (INR (S k))))
      by (field; apply Rgt_not_eq; exact Hs).
    rewrite sqrt_sqrt by lra. reflexivity.
Qed.

Lemma t_pdf_continuous k x : continuity_pt (t_pdf (S k)) x.
Proof.
  apply derivable_continuous_pt.
  eexists.
  apply (derivable_pt_lim_ext
           (mult_real_fct (/ (2 * sqrt (INR (S k)) * wallis k))
              (comp (fun y => y ^ S (S k))
                 (comp cos (comp atan (mult_real_fct (/ sqrt (INR (S k))) id)))))).
  { intro z. rewrite t_pdf_cos. unfold mult_real_fct, comp, id.
    rewrite (Rmult_comm (/ sqrt (INR (S k))) z). reflexivity. }
  apply derivable_pt_lim_scal.
  apply derivable_pt_lim_comp; [|apply derivable_pt_lim_pow].
  apply derivable_pt_lim_comp; [|apply derivable_pt_lim_cos].
  apply derivable_pt_lim_comp; [|apply derivable_pt_lim_atan].
  apply derivable_pt_lim_scal. apply derivable_pt_lim_id.
Qed.

Lemma normal_pdf_continuous x : continuity_pt normal_pdf x.
Proof.
  apply derivable_continuous_pt.
  eexists.
  apply (derivable_pt_lim_ext
           (mult_real_fct (/ sqrt (2 * PI))
              (comp exp (mult_real_fct (- / 2) (fun y => y ^ 2))))).
  { intro z. unfold mult_real_fct, comp, normal_pdf, Rsqr, Rdiv.
    replace (- / 2 * z ^ 2) with (- (z * z) * / 2) by ring. ring. }
  apply derivable_pt_lim_scal.
  apply derivable_pt_lim_comp; [|apply derivable_pt_lim_exp].
  apply derivable_pt_lim_scal. apply derivable_pt_lim_pow.
Qed.

Lemma continuous_integrable (f : R -> R) (a b : R) :
  (forall x, continuity_pt f x) -> Riemann_integrable f a b.
Proof.
  intro Hc. destruct (Rle_dec a b) as [Hab | Hab].
  - apply continuity_implies_RiemannInt; [exact Hab|]. intros x _. apply Hc.
  - apply RiemannInt_P1. apply continuity_implies_RiemannInt; [lra|].
    intros x _. apply Hc.
Qed.

Lemma t_pdf_integrable k a b : Riemann_integrable (t_pdf (S k)) a b.
Proof. apply continuous_integrable. intro x. apply t_pdf_continuous. Qed.

Lemma normal_pdf_integrable a b : Riemann_integrable normal_pdf a b.
Proof. apply continuous_integrable. exact normal_pdf_continuous. Qed.

(** Survival function [P (X >= x)] of Student's t distribution with [nu]
    degrees of freedom: one half (the mass of the upper half line, the
    density being even) less the mass of [[0, x]].  [nu = 0] is not a
    distribution; [t_sf] below never asks for it. *)
Definition student_sf (nu : nat) (x : R) : R :=
  match nu with
  | O => 0
  | S k => 1 / 2 - RiemannInt (t_pdf_integrable k 0 x)
  end.

(** Survival function of the standard normal distribution. *)
Definition normal_sf (x : R) : R := 1 / 2 - RiemannInt (normal_pdf_integrable 0 x).

Arguments student_sf : simpl never.
Arguments normal_sf : simpl never.
Arguments normal_pdf : simpl never.

(** [stats.t.sf(x, df)]: [nan] for [df <= 0] (scipy's argument check) and
    for [x = nan]. *)
Definition t_sf (x : npfloat) (df : Z) : npfloat :=
  if (df <=? 0)%Z then NaN
  else match x with
       | Fin a => Fin (student_sf (Z.to_nat df) a)
       | PInf => Fin 0
       | NInf => Fin 1
       | NaN => NaN
       end.

(** [stats.norm.pdf(x)]. *)
Definition norm_pdf (x : npfloat) : npfloat :=
  match x with
  | Fin a => Fin (normal_pdf a)
  | PInf | NInf => Fin 0
  | NaN => NaN
  end.

(** [stats.norm.sf(x)]; the notebook never calls it. *)
Definition norm_sf (x : npfloat) : npfloat :=
  match x with
  | Fin a => Fin (normal_sf a)
  | PInf => Fin 0
  | NInf => Fin 1
  | NaN => NaN
  end.

(** ** The notebook's cells

    [n], [m], [s] are the sample size, mean and standard deviation the
    notebook derives from the data set; [mu] is the hypothesised mean
    (the literal [98.6] in the cells) and [alpha] the significance level
    ([1-0.95] in the cells). *)

Inductive Distribution : Type := StudentT | Normal.

Inductive Tail : Type := TwoSided | LeftTailed | RightTailed.

(** What a test cell prints: the score, the p-value and the value it
    labels [alpha-value]. *)
Record Report : Type := mkReport {
  score : npfloat;
  p_value : npfloat;
  alpha_value : R
}.

(** [err = s/np.sqrt(n)] *)
Definition err (s : R) (n : Z) : npfloat := fdiv (Fin s) (np_sqrt n).

(** [t_score = (m - 98.6) / err] *)
Definition t_score (n : Z) (m s mu : R) : npfloat :=
  fdiv (Fin (m - mu)) (err s n).

(** [z_score = (m - 98.6) / err] *)
Definition z_score (n : Z) (m s mu : R) : npfloat :=
  fdiv (Fin (m - mu)) (err s n).

(** Two-sided t-test:
    [p_value = 2 * stats.t.sf(np.abs(t_score), n-1)], printed next to
    [alpha]. *)
Definition t_test_two_sided (n : Z) (m s mu alpha : R) : Report :=
  let t := t_score n m s mu in
  mkReport t (fmul (Fin 2) (t_sf (np_abs t) (n - 1))) alpha.

(** Two-sided z-test:
    [p_value = 2 * stats.norm.pdf(abs(z_score))], printed next to
    [alpha]. *)
Definition z_test_two_sided (n : Z) (m s mu alpha : R) : Report :=
  let z := z_score n m s mu in
  mkReport z (fmul (Fin 2) (norm_pdf (np_abs z))) alpha.

(** One-sided t-test, right tail:
    [p_value = stats.t.sf(t_score, n-1)], printed next to [1-alpha]. *)
Definition t_test_right_tail (n : Z) (m s mu alpha : R) : Report :=
  let t := t_score n m s mu in
  mkReport t (t_sf t (n - 1)) (1 - alpha).

(** One-sided t-test, left tail, as the closing cell describes it: "you
    would use [alpha] instead of [1-alpha] and [stats.t.sf(-t_score, n-1)]
    instead of [stats.t.sf(t_score, n-1)]". *)
Definition t_test_left_tail (n : Z) (m s mu alpha : R) : Report :=
  let t := t_score n m s mu in
  mkReport t (t_sf (fneg t) (n - 1)) alpha.

(** The evaluation procedure: the cell that runs the requested test.  The
    notebook has no one-sided z-test. *)
Definition evaluate (d : Distribution) (tl : Tail) (n : Z) (m s mu alpha : R)
  : option Report :=
  match d, tl with
  | StudentT, TwoSided => Some (t_test_two_sided n m s mu alpha)
  | StudentT, RightTailed => Some (t_test_right_tail n m s mu alpha)
  | StudentT, LeftTailed => Some (t_test_left_tail n m s mu alpha)
  | Normal, TwoSided => Some (z_test_two_sided n m s mu alpha)
  | Normal, _ => None
  end.

(** The cells compute no decision: they print the p-value and the
    alpha-value, and the opening cell gives the rule to read them by, "if
    [p <= alpha], then [H0] must be rejected; if [p > alpha], then [H0]
    must be accepted".  [reject] is that rule on the two printed values;
    it is used below for the two-sided cells, whose alpha-value is
    [alpha], and for p-values that are [nan]. *)
Definition reject (r : Report) : bool := fleb (p_value r) (Fin (alpha_value r)).

(** The value a cell prints as [alpha-value] for each tail. *)
Definition threshold (tl : Tail) (alpha : R) : R :=
  match tl with
  | RightTailed => 1 - alpha
  | TwoSided | LeftTailed => alpha
  end.

(** ** The sample summary (the cells before the tests)

    The data set is a table with the columns [temp], [sex] and [bpm]; the
    summary cells keep the rows with [sex == 0] and take the length, the
    mean and the standard deviation of their [temp] column. *)

From Stdlib Require Import List Permutation.
Import ListNotations.

Record Row : Type := mkRow {
  temp : R;
  sex : Z;
  bpm : Z
}.

(** [body[body['sex'] == 0].temp] *)
Definition male_temps (body : list Row) : list R :=
  map temp (filter (fun r => (sex r =? 0)%Z) body).

Definition Rsum (xs : list R) : R := fold_right Rplus 0 xs.

(** Sum of the squared deviations from [c]. *)
Definition sq_dev (c : R) (xs : list R) : R :=
  Rsum (map (fun x => (x - c) ^ 2) xs).

(** [statistics.mean]: raises [StatisticsError] on no data ([None]),
    else the exact mean. *)
Definition mean (xs : list R) : option R :=
  match xs with
  | [] => None
  | _ :: _ => Some (Rsum xs / INR (length xs))
  end.

(** [statistics.stdev]: raises [StatisticsError] on fewer than two data
    points ([None]), else the square root of the sum of the squared
    deviations from the mean over [n - 1]. *)
Definition stdev (xs : list R) : option R :=
  if (length xs <? 2)%nat then None
  else Some (sqrt (sq_dev (Rsum xs / INR (length xs)) xs / INR (length xs - 1))).

(** What the summary cell leaves behind for the test cells. *)
Record Summary : Type := mkSummary {
  sample_size : Z;
  sample_mean : R;
  sample_stdev : R;
  std_error : npfloat
}.

(** The summary cell, with the [statistics] module:
    [n = len(body[body['sex'] == 0].temp)],
    [m = mean(body[body['sex'] == 0].temp)],
    [s = stdev(body[body['sex'] == 0].temp)],
    [err = s/np.sqrt(n)].  An exception ends the cell ([None]). *)
Definition summary (body : list Row) : option Summary :=
  let xs := male_temps body in
  let n := Z.of_nat (length xs) in
  match mean xs with
  | None => None
  | Some m =>
      match stdev xs with
      | None => None
      | Some s => Some (mkSummary n m s (err s n))
      end
  end.

(** The summary cell followed by a test cell. *)
Definition run (d : Distribution) (tl : Tail) (body : list Row) (mu alpha : R)
  : option Report :=
  match summary body with
  | None => None
  | Some sm =>
      evaluate d tl (sample_size sm) (sample_mean sm) (sample_stdev sm) mu alpha
  end.

(** The same table in another unit of temperature, [temp -> a * temp + b]. *)
Definition convert (a b : R) (body : list Row) : list Row :=
  map (fun r => mkRow (a * temp r + b) (sex r) (bpm r)) body.

(** ** Closed form of the survival function for even degrees of freedom *)

(** [cos_int (2j+1) x = sin x * poly_odd j (cos x ^ 2)]. *)
Fixpoint poly_odd (j : nat) (c : R) : R :=
  match j with
  | O => 1
  | S i => (c ^ S i + INR (2 * i + 2) * poly_odd i c) / INR (2 * i + 3)
  end.

(** [wallis (2j+1)], a rational number. *)
Fixpoint wallis_odd (j : nat) : R :=
  match j with
  | O => 1
  | S i => INR (2 * i + 2) / INR (2 * i + 3) * wallis_odd i
  end.

(** Over the integers: [odd_fact j = 3 * 5 * ... * (2j+1)],
    [even_fact j = 2 * 4 * ... * (2j)], and [poly_oddZ j a b], the
    numerator of [poly_odd j (a/b)] over the denominator
    [b^j * odd_fact j]. *)
Fixpoint odd_fact (j : nat) : Z :=
  match j with
  | O => 1
  | S i => Z.of_nat (2 * i + 3) * odd_fact i
  end.

Fixpoint even_fact (j : nat) : Z :=
  match j with
  | O => 1
  | S i => Z.of_nat (2 * i + 2) * even_fact i
  end.

Fixpoint poly_oddZ (j : nat) (a b : Z) : Z :=
  match j with
  | O => 1
  | S i => a ^ Z.of_nat (S i) * odd_fact i
           + Z.of_nat (2 * i + 2) * b * poly_oddZ i a b
  end.

(** ** The body-temperature sample of the notebook *)

Definition sample_n : Z := 65.
Definition sample_m : R := 98.10461538461539.
Definition sample_s : R := 0.6987557623265904.
Definition sample_mu : R := 98.6.
Definition sample_alpha : R := 0.05.

(** The score of the sample. *)
Definition sample_t : R :=
  (sample_m - sample_mu) / (sample_s / sqrt (IZR sample_n)).

(** Its square, [65 * (mu - m)^2 / s^2], as a quotient of integers. *)
Definition sample_Tn : Z := 650000 * 49538461538461 ^ 2.
Definition sample_Td : Z := 6987557623265904 ^ 2.

(** With 64 degrees of freedom: [b = 64 * Td + Tn], and numerator and
    denominator of [poly_odd 31 c / wallis_odd 31] at
    [c = 64 * Td / b]. *)
Definition sample_b : Z := 64 * sample_Td + sample_Tn.
Definition sample_N : Z := poly_oddZ 31 (64 * sample_Td) sample_b.
Definition sample_D : Z := sample_b ^ 31 * even_fact 31.

(** ** Antiderivatives of the powers of the cosine *)

Lemma cos_int_deriv n x : derivable_pt_lim (cos_int n) x (cos x ^ n).
Proof.
  revert x. induction n as [| |k IH] using nat_ind_step2; intro x.
  - simpl. apply (derivable_pt_lim_ext id); [reflexivity|]. apply derivable_pt_lim_id.
  - simpl. rewrite Rmult_1_r. apply (derivable_pt_lim_ext sin); [reflexivity|].
    apply derivable_pt_lim_sin.
  - set (c := INR (S k)). set (d := INR (S (S k))).
    assert (Hd : d = c + 1) by (unfold d, c; rewrite (S_INR (S k)); reflexivity).
    assert (Hc : 0 < c) by (unfold c; apply lt_0_INR; lia).
    apply (derivable_pt_lim_ext
             (mult_real_fct (/ d)
                (plus_fct (mult_fct (comp (fun y => y ^ S k) cos) sin)
                          (mult_real_fct c (cos_int k))))).
    { intro z. unfold mult_real_fct, plus_fct, mult_fct, comp.
      change (cos_int (S (S k)) z) with ((cos z ^ S k * sin z + c * cos_int k z) / d).
      unfold Rdiv. ring. }
    replace (cos x ^ S (S k)) with
      (/ d * ((INR (S k) * cos x ^ pred (S k) * (- sin x) * sin x
              + (cos x ^ S k) * cos x) + c * cos x ^ k)).
    + apply derivable_pt_lim_scal.
      apply derivable_pt_lim_plus.
      * apply derivable_pt_lim_mult.
        -- apply derivable_pt_lim_comp.
           ++ apply derivable_pt_lim_cos.
           ++ apply derivable_pt_lim_pow.
        -- apply derivable_pt_lim_sin.
      * apply derivable_pt_lim_scal. apply IH.
    + fold c. simpl pred. 
      assert (Hs : sin x * sin x = 1 - cos x * cos x).
      { pose proof (sin2_cos2 x) as H. unfold Rsqr in H. lra. }
      simpl pow.
      replace (c * cos x ^ k * - sin x * sin x) with (- c * cos x ^ k * (sin x * sin x)) by ring.
      rewrite Hs, Hd. field. lra.
Qed.

Lemma cos_int_0 n : cos_int n 0 = 0.
Proof.
  induction n as [| |k IH] using nat_ind_step2.
  - reflexivity.
  - simpl. apply sin_0.
  - change (cos_int (S (S k)) 0)
      with ((cos 0 ^ S k * sin 0 + INR (S k) * cos_int k 0) / INR (S (S k))).
    rewrite IH, sin_0. unfold Rdiv. ring.
Qed.

Lemma cos_int_PI2 n : cos_int n (PI / 2) = wallis n.
Proof.
  induction n as [| |k IH] using nat_ind_step2.
  - reflexivity.
  - simpl. apply sin_PI2.
  - change (cos_int (S (S k)) (PI / 2))
      with ((cos (PI / 2) ^ S k * sin (PI / 2) + INR (S k) * cos_int k (PI / 2))
            / INR (S (S k))).
    change (wallis (S (S k))) with (INR (S k) / INR (S (S k)) * wallis k).
    rewrite IH, cos_PI2, pow_i by lia. unfold Rdiv. ring.
Qed.

Lemma cos_int_opp n x : cos_int n (- x) = - cos_int n x.
Proof.
  induction n as [| |k IH] using nat_ind_step2.
  - reflexivity.
  - simpl. apply sin_neg.
  - change (cos_int (S (S k)) (- x))
      with ((cos (- x) ^ S k * sin (- x) + INR (S k) * cos_int k (- x))
            / INR (S (S k))).
    change (cos_int (S (S k)) x)
      with ((cos x ^ S k * sin x + INR (S k) * cos_int k x) / INR (S (S k))).
    rewrite IH, cos_neg, sin_neg. unfold Rdiv. ring.
Qed.

Lemma cos_int_lt n x y :
  - (PI / 2) <= x -> x < y -> y <= PI / 2 -> cos_int n x < cos_int n y.
Proof.
  intros Hx Hxy Hy.
  destruct (MVT_cor2 (cos_int n) (fun t => cos t ^ n) x y Hxy) as [c [Hc Hin]].
  { intros t _. apply cos_int_deriv. }
  assert (0 < cos c) by (apply cos_gt_0; lra).
  assert (0 < cos c ^ n) by (apply pow_lt; assumption).
  assert (0 < cos c ^ n * (y - x)) by (apply Rmult_lt_0_compat; lra).
  lra.
Qed.

Lemma cos_int_bound n x :
  - (PI / 2) < x < PI / 2 -> - wallis n < cos_int n x < wallis n.
Proof.
  intros [Hl Hu]. split.
  - rewrite <- cos_int_PI2, <- cos_int_opp. apply cos_int_lt; lra.
  - rewrite <- cos_int_PI2. apply cos_int_lt; lra.
Qed.

Lemma cos_int_nonneg n x : 0 <= x < PI / 2 -> 0 <= cos_int n x.
Proof.
  intros [H0 Hu]. destruct H0 as [H0 | <-].
  - rewrite <- (cos_int_0 n). left. pose proof PI_RGT_0. apply cos_int_lt; lra.
  - rewrite cos_int_0. lra.
Qed.

(** ** Student's t: the closed form is the integral of the density *)

Lemma t_half_deriv nu x :
  (0 < nu)%nat -> derivable_pt_lim (t_half nu) x (t_pdf nu x).
Proof.
  intro Hnu.
  assert (Hn : 0 < INR nu) by (apply lt_0_INR; assumption).
  assert (Hs : 0 < sqrt (INR nu)) by (apply sqrt_lt_R0; assumption).
  pose proof (wallis_pos (pred nu)) as Hw.
  set (u := x / sqrt (INR nu)).
  apply (derivable_pt_lim_ext
           (mult_real_fct (/ (2 * wallis (pred nu)))
              (comp (cos_int (pred nu))
                 (comp atan (mult_real_fct (/ sqrt (INR nu)) id))))).
  { intro z. unfold mult_real_fct, comp, id, t_half, Rdiv.
    rewrite (Rmult_comm (/ sqrt (INR nu)) z). ring. }
  replace (t_pdf nu x) with
    (/ (2 * wallis (pred nu)) *
       (cos (atan u) ^ pred nu * (/ (1 + u²) * (/ sqrt (INR nu) * 1)))).
  - apply derivable_pt_lim_scal.
    apply derivable_pt_lim_comp.
    + apply derivable_pt_lim_comp.
      * apply derivable_pt_lim_scal. apply derivable_pt_lim_id.
      * unfold mult_real_fct, id. rewrite (Rmult_comm (/ sqrt (INR nu)) x).
        fold (x / sqrt (INR nu)). fold u.
        unfold Rsqr. replace (1 + u * u) with (1 + u ^ 2) by ring.
        apply derivable_pt_lim_atan.
    + unfold comp, mult_real_fct, id. rewrite (Rmult_comm (/ sqrt (INR nu)) x).
      fold (x / sqrt (INR nu)). fold u. apply cos_int_deriv.
  - unfold t_pdf.
    assert (Hu : u² = x² / INR nu).
    { unfold u, Rsqr.
      replace (x / sqrt (INR nu) * (x / sqrt (INR nu)))
        with (x * x / (sqrt (INR nu) * sqrt (INR nu))) by (field; apply Rgt_not_eq; exact Hs).
      rewrite sqrt_sqrt by lra. reflexivity. }
    rewrite <- Hu. rewrite cos_atan.
    assert (Hq : 0 < 1 + u²) by (pose proof (Rle_0_sqr u); lra).
    assert (Hsq : 0 < sqrt (1 + u²)) by (apply sqrt_lt_R0; assumption).
    replace (/ (1 + u²)) with (/ sqrt (1 + u²) * / sqrt (1 + u²)).
    2:{ rewrite <- Rinv_mult. rewrite sqrt_sqrt by lra. reflexivity. }
    destruct nu as [|k]; [lia|]. simpl pred in *.
    replace (1 / sqrt (1 + u²)) with (/ sqrt (1 + u²)) by (field; lra).
    simpl pow. field. repeat split; lra.
Qed.

(** The integral of a continuous function with a known antiderivative. *)
Lemma RiemannInt_antiderivative (f F : R -> R) (a b : R)
      (pr : Riemann_integrable f a b) :
  (forall x, continuity_pt f x) ->
  (forall x, derivable_pt_lim F x (f x)) ->
  RiemannInt pr = F b - F a.
Proof.
  intros Hc HF.
  assert (main : forall u v (p : Riemann_integrable f u v),
             u <= v -> RiemannInt p = F v - F u).
  { intros u v p Huv.
    assert (C0 : forall x, u <= x <= v -> continuity_pt f x) by (intros; apply Hc).
    rewrite (RiemannInt_P20 Huv (FTC_P1 Huv C0) p).
    assert (A1 := RiemannInt_P29 Huv C0).
    assert (A2 : antiderivative f F u v).
    { split; [|exact Huv]. intros x _.
      exists (exist _ (f x) (HF x)). reflexivity. }
    destruct (antiderivative_Ucte f _ _ u v A1 A2) as [c Hcst].
    rewrite (Hcst v), (Hcst u) by lra. ring. }
  destruct (Rle_dec a b) as [Hab | Hab].
  - apply main; exact Hab.
  - rewrite (RiemannInt_P8 pr (RiemannInt_P1 pr)).
    rewrite main by lra. ring.
Qed.

Lemma t_pdf_pos k x : 0 < t_pdf (S k) x.
Proof.
  assert (Hn : 0 < INR (S k)) by (apply lt_0_INR; lia).
  assert (Hs : 0 < sqrt (INR (S k))) by (apply sqrt_lt_R0; assumption).
  pose proof (wallis_pos k) as Hw.
  rewrite t_pdf_cos. apply Rmult_lt_0_compat.
  - apply Rinv_0_lt_compat. apply Rmult_lt_0_compat; lra.
  - apply pow_lt. apply cos_gt_0; pose proof (atan_bound (x / sqrt (INR (S k)))); lra.
Qed.

Lemma student_sf_closed k x : student_sf (S k) x = 1 / 2 - t_half (S k) x.
Proof.
  unfold student_sf.
  rewrite (RiemannInt_antiderivative (t_pdf (S k)) (t_half (S k))).
  - unfold t_half at 2. unfold Rdiv at 3. rewrite Rmult_0_l, atan_0, cos_int_0.
    unfold Rdiv. ring.
  - intro y. apply t_pdf_continuous.
  - intro y. apply t_half_deriv. lia.
Qed.

(** ** Symmetry and range of the survival function *)

Lemma t_half_0 k : t_half (S k) 0 = 0.
Proof.
  unfold t_half. unfold Rdiv at 2. rewrite Rmult_0_l, atan_0, cos_int_0.
  unfold Rdiv. ring.
Qed.

Lemma t_half_opp k x : t_half (S k) (- x) = - t_half (S k) x.
Proof.
  unfold t_half.
  replace (- x / sqrt (INR (S k))) with (- (x / sqrt (INR (S k))))
    by (unfold Rdiv; ring).
  rewrite atan_opp, cos_int_opp. unfold Rdiv. ring.
Qed.

Lemma t_half_bound k x : - (1 / 2) < t_half (S k) x < 1 / 2.
Proof.
  pose proof (wallis_pos k) as Hw.
  pose proof (atan_bound (x / sqrt (INR (S k)))) as Hb.
  destruct (cos_int_bound k (atan (x / sqrt (INR (S k))))) as [Hl Hu]; [lra|].
  unfold t_half. simpl pred.
  split.
  - apply Rmult_lt_reg_r with (2 * wallis k); [lra|].
    unfold Rdiv. rewrite Rmult_assoc, Rinv_l by lra. lra.
  - apply Rmult_lt_reg_r with (2 * wallis k); [lra|].
    unfold Rdiv. rewrite Rmult_assoc, Rinv_l by lra. lra.
Qed.

Lemma t_half_nonneg k x : 0 <= x -> 0 <= t_half (S k) x.
Proof.
  intro Hx.
  assert (Hn : 0 < INR (S k)) by (apply lt_0_INR; lia).
  assert (Hs : 0 < sqrt (INR (S k))) by (apply sqrt_lt_R0; assumption).
  pose proof (wallis_pos k) as Hw.
  pose proof (atan_bound (x / sqrt (INR (S k)))) as Hb.
  assert (H0 : 0 <= atan (x / sqrt (INR (S k)))).
  { assert (Hq : 0 <= x / sqrt (INR (S k))).
    { apply Rmult_le_pos; [exact Hx|]. left. apply Rinv_0_lt_compat. exact Hs. }
    destruct Hq as [Hq | <-].
    - left. rewrite <- atan_0. apply atan_increasing. exact Hq.
    - rewrite atan_0. lra. }
  unfold t_half. simpl pred.
  apply Rmult_le_pos.
  - apply cos_int_nonneg. lra.
  - left. apply Rinv_0_lt_compat. lra.
Qed.

Lemma student_sf_0 k : student_sf (S k) 0 = 1 / 2.
Proof. rewrite student_sf_closed, t_half_0. lra. Qed.

Lemma student_sf_opp k x : student_sf (S k) (- x) = 1 - student_sf (S k) x.
Proof. rewrite !student_sf_closed, t_half_opp. lra. Qed.

Lemma student_sf_range k x : 0 < student_sf (S k) x < 1.
Proof. rewrite student_sf_closed. pose proof (t_half_bound k x). lra. Qed.

Lemma student_sf_upper_half k x : 0 <= x -> student_sf (S k) x <= 1 / 2.
Proof. intro Hx. rewrite student_sf_closed. pose proof (t_half_nonneg k x Hx). lra. Qed.

(** ** Even degrees of freedom: the survival function is algebraic *)

Lemma cos_int_odd j x : cos_int (2 * j + 1) x = sin x * poly_odd j (cos x ^ 2).
Proof.
  induction j as [|i IH].
  - simpl. ring.
  - replace (2 * S i + 1)%nat with (S (S (2 * i + 1))) by lia.
    change (cos_int (S (S (2 * i + 1))) x)
      with ((cos x ^ S (2 * i + 1) * sin x + INR (S (2 * i + 1)) * cos_int (2 * i + 1) x)
            / INR (S (S (2 * i + 1)))).
    rewrite IH.
    change (poly_odd (S i) (cos x ^ 2))
      with (((cos x ^ 2) ^ S i + INR (2 * i + 2) * poly_odd i (cos x ^ 2))
            / INR (2 * i + 3)).
    rewrite <- pow_mult.
    replace (S (2 * i + 1)) with (2 * S i)%nat by lia.
    replace (S (2 * S i)) with (2 * i + 3)%nat by lia.
    replace (2 * S i)%nat with (2 * i + 2)%nat by lia.
    unfold Rdiv. ring.
Qed.

Lemma wallis_odd_eq j : wallis (2 * j + 1) = wallis_odd j.
Proof.
  induction j as [|i IH].
  - reflexivity.
  - replace (2 * S i + 1)%nat with (S (S (2 * i + 1))) by lia.
    change (wallis (S (S (2 * i + 1))))
      with (INR (S (2 * i + 1)) / INR (S (S (2 * i + 1))) * wallis (2 * i + 1)).
    rewrite IH. simpl wallis_odd.
    replace (S (2 * i + 1)) with (2 * i + 2)%nat by lia.
    replace (S (2 * i + 2)) with (2 * i + 3)%nat by lia.
    reflexivity.
Qed.

Lemma wallis_odd_pos j : 0 < wallis_odd j.
Proof. rewrite <- wallis_odd_eq. apply wallis_pos. Qed.

(** For [nu = 2j + 2] and [x >= 0], with [c = nu / (nu + x^2)]:
    [sf x = 1/2 - sn * poly_odd j c / (2 * wallis_odd j)] where [sn >= 0]
    and [sn^2 = 1 - c]. *)
Lemma student_sf_even j x :
  0 <= x ->
  exists sn : R,
    0 <= sn /\
    sn ^ 2 = x ^ 2 / (INR (2 * j + 2) + x ^ 2) /\
    student_sf (2 * j + 2) x =
    1 / 2 - sn * poly_odd j (INR (2 * j + 2) / (INR (2 * j + 2) + x ^ 2))
            / (2 * wallis_odd j).
Proof.
  intro Hx.
  replace (2 * j + 2)%nat with (S (2 * j + 1)) by lia.
  set (nu := S (2 * j + 1)).
  assert (Hn : 0 < INR nu) by (apply lt_0_INR; unfold nu; lia).
  assert (Hs : 0 < sqrt (INR nu)) by (apply sqrt_lt_R0; assumption).
  set (u := x / sqrt (INR nu)).
  assert (Hu2 : u ^ 2 = x ^ 2 / INR nu).
  { unfold u.
    replace ((x / sqrt (INR nu)) ^ 2)
      with (x ^ 2 / (sqrt (INR nu) * sqrt (INR nu)))
      by (field; apply Rgt_not_eq; exact Hs).
    rewrite sqrt_sqrt by lra. reflexivity. }
  assert (Hu0 : 0 <= u).
  { unfold u. apply Rmult_le_pos; [exact Hx|]. left. apply Rinv_0_lt_compat. exact Hs. }
  assert (Hq : 0 < 1 + u²) by (pose proof (Rle_0_sqr u); lra).
  assert (Hsq : 0 < sqrt (1 + u²)) by (apply sqrt_lt_R0; assumption).
  assert (Hx2 : 0 <= x ^ 2) by (apply pow2_ge_0).
  assert (Hcos : cos (atan u) ^ 2 = INR nu / (INR nu + x ^ 2)).
  { rewrite cos_atan.
    replace ((1 / sqrt (1 + u²)) ^ 2) with (/ (sqrt (1 + u²) * sqrt (1 + u²)))
      by (field; lra).
    rewrite sqrt_sqrt by lra. unfold Rsqr.
    replace (u * u) with (u ^ 2) by ring. rewrite Hu2. field. lra. }
  exists (sin (atan u)). split; [|split].
  - rewrite sin_atan. apply Rmult_le_pos; [exact Hu0|].
    left. apply Rinv_0_lt_compat. exact Hsq.
  - pose proof (sin2_cos2 (atan u)) as Hsc. unfold Rsqr in Hsc.
    replace (sin (atan u) ^ 2) with (1 - cos (atan u) ^ 2) by (simpl; lra).
    rewrite Hcos. field. lra.
  - unfold nu at 1. rewrite student_sf_closed. unfold t_half. cbn [pred].
    fold nu. fold u.
    rewrite cos_int_odd, Hcos, wallis_odd_eq. reflexivity.
Qed.

(** ** Comparing through squares *)

Lemma sq_lt_inv (x y : R) : 0 <= x -> 0 < y -> x ^ 2 < y ^ 2 -> x < y.
Proof. intros. nra. Qed.

(** ** The model is the survival function of the density *)

(** One degree of freedom is the Cauchy distribution. *)
Lemma t_pdf_cauchy x : t_pdf 1 x = 1 / (PI * (1 + x²)).
Proof.
  unfold t_pdf. cbn [pred wallis]. change (INR 1) with 1.
  rewrite sqrt_1.
  assert (Hq : 0 < 1 + x²) by (pose proof (Rle_0_sqr x); lra).
  assert (Hs : 0 < sqrt (1 + x²)) by (apply sqrt_lt_R0; exact Hq).
  replace (x² / 1) with x² by (unfold Rdiv; rewrite Rinv_1; ring).
  replace ((/ sqrt (1 + x²)) ^ 2) with (/ (sqrt (1 + x²) * sqrt (1 + x²)))
    by (field; lra).
  rewrite sqrt_sqrt by lra.
  pose proof PI_RGT_0. field. split; lra.
Qed.





(** ** numpy arithmetic on finite numbers *)

Lemma Ris_zero_true : Ris_zero 0 = true.
Proof. unfold Ris_zero. destruct (Req_dec_T 0 0); [reflexivity | lra]. Qed.

Lemma Ris_zero_false r : r <> 0 -> Ris_zero r = false.
Proof. intro H. unfold Ris_zero. destruct (Req_dec_T r 0); [contradiction | reflexivity]. Qed.

Lemma Rsign_pos_true r : 0 < r -> Rsign_pos r = true.
Proof. intro H. unfold Rsign_pos. destruct (Rlt_dec 0 r); [reflexivity | lra]. Qed.

Lemma Rsign_pos_false r : r <= 0 -> Rsign_pos r = false.
Proof. intro H. unfold Rsign_pos. destruct (Rlt_dec 0 r); [lra | reflexivity]. Qed.

Lemma Rsign_neg_true r : r < 0 -> Rsign_neg r = true.
Proof. intro H. unfold Rsign_neg. destruct (Rlt_dec r 0); [reflexivity | lra]. Qed.

Lemma Rsign_neg_false r : 0 <= r -> Rsign_neg r = false.
Proof. intro H. unfold Rsign_neg. destruct (Rlt_dec r 0); [lra | reflexivity]. Qed.

Lemma fdiv_fin a b : b <> 0 -> fdiv (Fin a) (Fin b) = Fin (a / b).
Proof. intro H. simpl. rewrite Ris_zero_false by exact H. reflexivity. Qed.

Lemma fdiv_zero_zero : fdiv (Fin 0) (Fin 0) = NaN.
Proof.
  simpl. rewrite Ris_zero_true, Rsign_pos_false, Rsign_neg_false by lra. reflexivity.
Qed.

Lemma fdiv_pos_zero a : 0 < a -> fdiv (Fin a) (Fin 0) = PInf.
Proof. intro H. simpl. rewrite Ris_zero_true, Rsign_pos_true by lra. reflexivity. Qed.

Lemma fdiv_neg_zero a : a < 0 -> fdiv (Fin a) (Fin 0) = NInf.
Proof.
  intro H. simpl.
  rewrite Ris_zero_true, Rsign_pos_false, Rsign_neg_true by lra. reflexivity.
Qed.

Lemma fleb_fin_true a b : a <= b -> fleb (Fin a) (Fin b) = true.
Proof. intro H. simpl. destruct (Rle_dec a b); [reflexivity | contradiction]. Qed.


Lemma fleb_fin_iff a b : fleb (Fin a) (Fin b) = true <-> a <= b.
Proof.
  simpl. destruct (Rle_dec a b); split; intro H; try reflexivity; try assumption.
  - discriminate.
  - contradiction.
Qed.

Lemma np_sqrt_pos n : (0 < n)%Z -> np_sqrt n = Fin (sqrt (IZR n)) /\ 0 < sqrt (IZR n).
Proof.
  intro Hn. unfold np_sqrt.
  destruct (Z.ltb_spec n 0) as [Hlt | _]; [lia|].
  split; [reflexivity|]. apply sqrt_lt_R0. apply IZR_lt. exact Hn.
Qed.

(** ** The standard error and the score *)

Lemma err_regular s n : (0 < n)%Z -> err s n = Fin (s / sqrt (IZR n)).
Proof.
  intro Hn. unfold err. destruct (np_sqrt_pos n Hn) as [-> Hpos].
  apply fdiv_fin. lra.
Qed.

Lemma t_score_regular n m s mu :
  (0 < n)%Z -> s <> 0 ->
  t_score n m s mu = Fin ((m - mu) / (s / sqrt (IZR n))).
Proof.
  intros Hn Hs. unfold t_score. rewrite err_regular by exact Hn.
  apply fdiv_fin.
  destruct (np_sqrt_pos n Hn) as [_ Hpos].
  unfold Rdiv. apply Rmult_integral_contrapositive_currified; [exact Hs|].
  apply Rinv_neq_0_compat. lra.
Qed.

Lemma z_score_eq n m s mu : z_score n m s mu = t_score n m s mu.
Proof. reflexivity. Qed.

(** With a zero standard deviation and the mean on the hypothesised value
    the score is [0/0]. *)
Lemma t_score_degenerate n m : t_score n m 0 m = NaN.
Proof.
  unfold t_score, err, np_sqrt.
  replace (m - m) with 0 by ring.
  destruct (Z.ltb_spec n 0) as [Hlt | Hge]; [reflexivity|].
  destruct (Z.eq_dec n 0) as [-> | Hne].
  - rewrite sqrt_0, fdiv_zero_zero. reflexivity.
  - assert (Hpos : 0 < sqrt (IZR n)).
    { apply sqrt_lt_R0. apply IZR_lt. lia. }
    rewrite fdiv_fin by lra.
    replace (0 / sqrt (IZR n)) with 0 by (unfold Rdiv; ring).
    apply fdiv_zero_zero.
Qed.

(** With a zero standard deviation and the mean off the hypothesised value
    the score is an infinity. *)
Lemma t_score_infinite n m mu :
  (0 < n)%Z -> m <> mu ->
  t_score n m 0 mu = PInf \/ t_score n m 0 mu = NInf.
Proof.
  intros Hn Hne. unfold t_score. rewrite err_regular by exact Hn.
  replace (0 / sqrt (IZR n)) with 0 by (unfold Rdiv; ring).
  destruct (Rtotal_order m mu) as [Hlt | [Heq | Hgt]].
  - right. apply fdiv_neg_zero. lra.
  - contradiction.
  - left. apply fdiv_pos_zero. lra.
Qed.

(** ** The normal density *)

Lemma PI_bounds : 3.14159 < PI < 3.1416.
Proof.
  pose proof (PI_2_3_7_ineq 3) as H.
  unfold sum_f_R0, tg_alt, PI_2_3_7_tg, Ratan_seq in H.
  simpl in H. lra.
Qed.

Lemma sqrt_2PI_bounds : 2.50662 < sqrt (2 * PI) < 2.50664.
Proof.
  pose proof PI_bounds as [Hl Hu].
  split.
  - apply Rsqr_incrst_0; [| lra | apply sqrt_pos].
    rewrite Rsqr_sqrt by lra. unfold Rsqr. lra.
  - apply Rsqr_incrst_0; [| apply sqrt_pos | lra].
    rewrite Rsqr_sqrt by lra. unfold Rsqr. lra.
Qed.

Lemma normal_pdf_0 : normal_pdf 0 = 1 / sqrt (2 * PI).
Proof.
  unfold normal_pdf. rewrite Rsqr_0.
  replace (- 0 / 2) with 0 by (unfold Rdiv; ring).
  rewrite exp_0. reflexivity.
Qed.

Lemma normal_pdf_pos x : 0 < normal_pdf x.
Proof.
  unfold normal_pdf. pose proof sqrt_2PI_bounds.
  apply Rdiv_lt_0_compat; [apply exp_pos | lra].
Qed.

Lemma normal_pdf_max x : normal_pdf x <= normal_pdf 0.
Proof.
  rewrite normal_pdf_0. unfold normal_pdf, Rdiv.
  pose proof sqrt_2PI_bounds.
  apply Rmult_le_compat_r.
  - left. apply Rinv_0_lt_compat. lra.
  - rewrite <- exp_0. pose proof (Rle_0_sqr x).
    destruct (Req_dec (- x² * / 2) 0) as [-> | Hne]; [lra|].
    left. apply exp_increasing. lra.
Qed.

Lemma normal_pdf_abs x : normal_pdf (Rabs x) = normal_pdf x.
Proof. unfold normal_pdf. rewrite <- Rsqr_abs. reflexivity. Qed.

Lemma two_normal_pdf_0_bounds : 0.7978 < 2 * normal_pdf 0 < 0.7980.
Proof.
  rewrite normal_pdf_0. pose proof sqrt_2PI_bounds as [Hl Hu].
  assert (Hpos : 0 < sqrt (2 * PI)) by lra.
  split.
  - apply Rmult_lt_reg_r with (sqrt (2 * PI)); [exact Hpos|].
    replace (2 * (1 / sqrt (2 * PI)) * sqrt (2 * PI)) with 2 by (field; lra).
    lra.
  - apply Rmult_lt_reg_r with (sqrt (2 * PI)); [exact Hpos|].
    replace (2 * (1 / sqrt (2 * PI)) * sqrt (2 * PI)) with 2 by (field; lra).
    lra.
Qed.

Lemma normal_sf_0 : normal_sf 0 = 1 / 2.
Proof. unfold normal_sf. rewrite RiemannInt_P9. lra. Qed.

Lemma sq_lt_inv' (x y : R) : 0 < x -> 0 <= y -> x ^ 2 < y ^ 2 -> x < y.
Proof. intros. nra. Qed.

(** [lo/den < sn * (N/D) < hi/den], decided on integers, when [sn >= 0]
    is known by its square [T/b]. *)
Lemma sq_bracket (sn : R) (T b N D lo hi den : Z) :
  0 <= sn -> sn ^ 2 = IZR T / IZR b ->
  (0 < b)%Z -> (0 < D)%Z -> (0 < den)%Z -> (0 <= N)%Z -> (0 < lo)%Z -> (0 < hi)%Z ->
  (lo ^ 2 * (b * D ^ 2) < T * N ^ 2 * den ^ 2)%Z ->
  (T * N ^ 2 * den ^ 2 < hi ^ 2 * (b * D ^ 2))%Z ->
  IZR lo / IZR den < sn * (IZR N / IZR D) < IZR hi / IZR den.
Proof.
  intros Hsn Hsq Hb HD Hden HN Hlo Hhi Hl Hu.
  apply IZR_lt in Hb, HD, Hden, Hlo, Hhi, Hl, Hu. apply IZR_le in HN.
  rewrite !mult_IZR in Hl, Hu.
  change 2%Z with (Z.of_nat 2) in Hl, Hu. rewrite <- !pow_IZR in Hl, Hu.
  set (t := IZR T) in *. set (rb := IZR b) in *. set (rn := IZR N) in *.
  set (rd := IZR D) in *. set (l := IZR lo) in *. set (h := IZR hi) in *.
  set (e := IZR den) in *.
  assert (Hprod : 0 <= sn * (rn / rd)).
  { apply Rmult_le_pos; [exact Hsn|]. apply Rmult_le_pos; [exact HN|].
    left. apply Rinv_0_lt_compat. exact HD. }
  assert (Hpos : 0 < e ^ 2 * (rb * rd ^ 2)).
  { apply Rmult_lt_0_compat; [apply pow_lt; exact Hden|].
    apply Rmult_lt_0_compat; [exact Hb | apply pow_lt; exact HD]. }
  assert (Hsq2 : (sn * (rn / rd)) ^ 2 = t * rn ^ 2 * e ^ 2 / (e ^ 2 * (rb * rd ^ 2))).
  { replace ((sn * (rn / rd)) ^ 2) with (sn ^ 2 * (rn ^ 2 / rd ^ 2)) by (field; lra).
    rewrite Hsq. field. repeat split; lra. }
  split.
  - apply sq_lt_inv'; [apply Rdiv_lt_0_compat; assumption | exact Hprod |].
    rewrite Hsq2.
    replace ((l / e) ^ 2) with (l ^ 2 * (rb * rd ^ 2) / (e ^ 2 * (rb * rd ^ 2)))
      by (field; repeat split; lra).
    unfold Rdiv. apply Rmult_lt_compat_r; [apply Rinv_0_lt_compat; exact Hpos | exact Hl].
  - apply sq_lt_inv; [exact Hprod | apply Rdiv_lt_0_compat; assumption |].
    rewrite Hsq2.
    replace ((h / e) ^ 2) with (h ^ 2 * (rb * rd ^ 2) / (e ^ 2 * (rb * rd ^ 2)))
      by (field; repeat split; lra).
    unfold Rdiv. apply Rmult_lt_compat_r; [apply Rinv_0_lt_compat; exact Hpos | exact Hu].
Qed.

(** ** The closed form over the integers *)

Lemma odd_fact_pos j : (0 < odd_fact j)%Z.
Proof. induction j as [|i IH]; simpl odd_fact; lia. Qed.

Lemma even_fact_pos j : (0 < even_fact j)%Z.
Proof. induction j as [|i IH]; simpl even_fact; lia. Qed.

Lemma wallis_odd_Z j : wallis_odd j = IZR (even_fact j) / IZR (odd_fact j).
Proof.
  induction j as [|i IH].
  - simpl. lra.
  - cbn [wallis_odd even_fact odd_fact].
    rewrite IH, !mult_IZR, !INR_IZR_INZ.
    pose proof (IZR_lt _ _ (odd_fact_pos i)) as HF.
    assert (H3 : 0 < IZR (Z.of_nat (2 * i + 3))) by (apply IZR_lt; lia).
    field. split; lra.
Qed.

Lemma poly_oddZ_correct j a b :
  (0 < b)%Z ->
  poly_odd j (IZR a / IZR b) = IZR (poly_oddZ j a b) / (IZR b ^ j * IZR (odd_fact j)).
Proof.
  intro Hb. apply IZR_lt in Hb.
  induction j as [|i IH].
  - simpl. lra.
  - cbn [poly_odd poly_oddZ odd_fact].
    rewrite IH, plus_IZR, !mult_IZR, <- pow_IZR, !INR_IZR_INZ.
    pose proof (IZR_lt _ _ (odd_fact_pos i)) as HF.
    assert (H3 : 0 < IZR (Z.of_nat (2 * i + 3))) by (apply IZR_lt; lia).
    assert (Hbi : 0 < IZR b ^ i) by (apply pow_lt; exact Hb).
    unfold Rdiv at 2. rewrite Rpow_mult_distr, pow_inv.
    change (IZR b ^ S i) with (IZR b * IZR b ^ i).
    set (pa := IZR a ^ S i). set (pb := IZR b ^ i) in *.
    field. repeat split; lra.
Qed.

(** For [nu = 2j + 2] and [x >= 0] with [x^2 = Tn/Td]: the survival
    function through integers. *)
Lemma student_sf_even_Z j (x : R) (Tn Td : Z) :
  0 <= x -> (0 <= Tn)%Z -> (0 < Td)%Z -> x ^ 2 = IZR Tn / IZR Td ->
  let nu := Z.of_nat (2 * j + 2) in
  let b := (nu * Td + Tn)%Z in
  exists sn : R,
    0 <= sn /\
    sn ^ 2 = IZR Tn / IZR b /\
    student_sf (2 * j + 2) x =
    1 / 2 - sn * (IZR (poly_oddZ j (nu * Td) b)
                  / IZR (b ^ Z.of_nat j * even_fact j)) / 2.
Proof.
  intros Hx HTn HTd Hsq nu b.
  assert (Hnu : (0 < nu)%Z) by (unfold nu; lia).
  assert (Hb : (0 < b)%Z) by (unfold b; nia).
  assert (Hbeq : IZR b = IZR nu * IZR Td + IZR Tn).
  { unfold b. rewrite plus_IZR, mult_IZR. reflexivity. }
  pose proof (IZR_lt _ _ HTd) as HTd'. pose proof (IZR_lt _ _ Hb) as Hb'.
  pose proof (IZR_lt _ _ Hnu) as Hnu'. pose proof (IZR_le _ _ HTn) as HTn'.
  destruct (student_sf_even j x Hx) as (sn & Hsn0 & Hsn2 & Hsf).
  rewrite INR_IZR_INZ in Hsn2, Hsf. fold nu in Hsn2, Hsf.
  rewrite Hsq in Hsn2, Hsf.
  exists sn. split; [exact Hsn0|]. split.
  - rewrite Hsn2, Hbeq. field. split; lra.
  - rewrite Hsf.
    replace (IZR nu / (IZR nu + IZR Tn / IZR Td)) with (IZR (nu * Td) / IZR b)
      by (rewrite Hbeq, mult_IZR; field; split; lra).
    rewrite poly_oddZ_correct by exact Hb.
    rewrite wallis_odd_Z, mult_IZR, <- pow_IZR.
    pose proof (IZR_lt _ _ (odd_fact_pos j)) as HF.
    pose proof (IZR_lt _ _ (even_fact_pos j)) as HG.
    assert (Hbj : 0 < IZR b ^ j) by (apply pow_lt; exact Hb').
    set (pb := IZR b ^ j) in *.
    field. repeat split; lra.
Qed.

(** ** The notebook's sample, numerically *)

Lemma sample_score :
  t_score sample_n sample_m sample_s sample_mu = Fin sample_t.
Proof.
  apply t_score_regular.
  - unfold sample_n. lia.
  - unfold sample_s. lra.
Qed.

Lemma sample_t_neg : sample_t < 0.
Proof.
  unfold sample_t, sample_m, sample_mu, sample_s, sample_n.
  assert (Hs : 0 < sqrt 65) by (apply sqrt_lt_R0; lra).
  replace ((98.10461538461539 - 98.6) / (0.6987557623265904 / sqrt 65))
    with (- ((98.6 - 98.10461538461539) / 0.6987557623265904 * sqrt 65))
    by (field; lra).
  assert (0 < (98.6 - 98.10461538461539) / 0.6987557623265904 * sqrt 65).
  { apply Rmult_lt_0_compat; [lra | exact Hs]. }
  lra.
Qed.

Lemma sample_t_sq : sample_t ^ 2 = IZR sample_Tn / IZR sample_Td.
Proof.
  unfold sample_Tn, sample_Td. rewrite mult_IZR.
  change 2%Z with (Z.of_nat 2). rewrite <- !pow_IZR.
  unfold sample_t, sample_m, sample_mu, sample_s, sample_n.
  assert (Hs : 0 < sqrt 65) by (apply sqrt_lt_R0; lra).
  replace (((98.10461538461539 - 98.6) / (0.6987557623265904 / sqrt 65)) ^ 2)
    with ((98.10461538461539 - 98.6) ^ 2 * (sqrt 65 * sqrt 65)
          / 0.6987557623265904 ^ 2) by (field; lra).
  rewrite sqrt_sqrt by lra. lra.
Qed.

Lemma sample_t_bounds : -5.7157575 < sample_t < -5.7157565.
Proof.
  pose proof sample_t_neg as Hneg.
  pose proof sample_t_sq as Hsq.
  assert (HTd : 0 < IZR sample_Td) by (apply IZR_lt; reflexivity).
  assert (Hlo : IZR (57157565 ^ 2 * sample_Td) < IZR (sample_Tn * 10000000 ^ 2)).
  { apply IZR_lt. reflexivity. }
  assert (Hhi : IZR (sample_Tn * 10000000 ^ 2) < IZR (57157575 ^ 2 * sample_Td)).
  { apply IZR_lt. reflexivity. }
  rewrite !mult_IZR in Hlo, Hhi.
  change 2%Z with (Z.of_nat 2) in Hlo, Hhi. rewrite <- !pow_IZR in Hlo, Hhi.
  assert (Heq : IZR sample_Tn = sample_t ^ 2 * IZR sample_Td).
  { rewrite Hsq. field. lra. }
  rewrite Heq in Hlo, Hhi.
  split.
  - assert (- sample_t < 5.7157575); [|lra].
    apply sq_lt_inv; [lra | lra |].
    replace ((- sample_t) ^ 2) with (sample_t ^ 2) by ring. nra.
  - assert (5.7157565 < - sample_t); [|lra].
    apply sq_lt_inv'; [lra | lra |].
    replace ((- sample_t) ^ 2) with (sample_t ^ 2) by ring. nra.
Qed.

(** The t survival function at the absolute score of the sample, 64
    degrees of freedom: [1.54192e-07]. *)
Lemma sample_sf_bounds :
  1.5419175e-7 < student_sf 64 (- sample_t) < 1.5419225e-7.
Proof.
  pose proof sample_t_neg as Hneg.
  assert (Hx : 0 <= - sample_t) by lra.
  assert (Hq : (- sample_t) ^ 2 = IZR sample_Tn / IZR sample_Td).
  { rewrite <- sample_t_sq. ring. }
  assert (HTn : (0 <= sample_Tn)%Z) by (vm_compute; discriminate).
  assert (HTd : (0 < sample_Td)%Z) by reflexivity.
  destruct (student_sf_even_Z 31 (- sample_t) sample_Tn sample_Td Hx HTn HTd Hq)
    as (sn & Hsn0 & Hsn2 & Hsf).
  change (Z.of_nat (2 * 31 + 2) * sample_Td + sample_Tn)%Z with sample_b in Hsn2, Hsf.
  change (poly_oddZ 31 (Z.of_nat (2 * 31 + 2) * sample_Td) sample_b)
    with sample_N in Hsf.
  change (sample_b ^ Z.of_nat 31 * even_fact 31)%Z with sample_D in Hsf.
  assert (Hb := sq_bracket sn sample_Tn sample_b sample_N sample_D
                  9999996916155 9999996916165 10000000000000 Hsn0 Hsn2).
  destruct Hb as [Hl Hu]; try (vm_compute; reflexivity).
  { vm_compute; discriminate. }
  change (student_sf 64 (- sample_t)) with (student_sf (2 * 31 + 2) (- sample_t)).
  rewrite Hsf. lra.
Qed.

(** ** The p-values *)

Lemma t_sf_fin a df :
  (0 < df)%Z -> t_sf (Fin a) df = Fin (student_sf (Z.to_nat df) a).
Proof.
  intro H. unfold t_sf. destruct (Z.leb_spec df 0) as [Hle | _]; [lia | reflexivity].
Qed.

Lemma t_sf_bad_df x df : (df <= 0)%Z -> t_sf x df = NaN.
Proof.
  intro H. unfold t_sf. destruct (Z.leb_spec df 0) as [_ | Hlt]; [reflexivity | lia].
Qed.

Lemma t_sf_nan df : t_sf NaN df = NaN.
Proof. unfold t_sf. destruct (df <=? 0)%Z; reflexivity. Qed.

Lemma to_nat_succ df : (0 < df)%Z -> exists k, Z.to_nat df = S k.
Proof.
  intro H. exists (pred (Z.to_nat df)).
  assert (0 < Z.to_nat df)%nat by lia. lia.
Qed.

Lemma t_sf_range x df :
  (0 < df)%Z -> x <> NaN -> in_unit_interval (t_sf x df).
Proof.
  intros Hdf Hx. destruct (to_nat_succ df Hdf) as [k Hk].
  destruct x as [a | | |].
  - rewrite t_sf_fin by exact Hdf. rewrite Hk. simpl.
    pose proof (student_sf_range k a). lra.
  - unfold t_sf. destruct (Z.leb_spec df 0); [lia|]. simpl. lra.
  - unfold t_sf. destruct (Z.leb_spec df 0); [lia|]. simpl. lra.
  - contradiction.
Qed.

Lemma two_t_sf_abs_range x df :
  (0 < df)%Z -> x <> NaN ->
  in_unit_interval (fmul (Fin 2) (t_sf (np_abs x) df)).
Proof.
  intros Hdf Hx. destruct (to_nat_succ df Hdf) as [k Hk].
  destruct x as [a | | |].
  - simpl np_abs. rewrite t_sf_fin by exact Hdf. rewrite Hk. simpl.
    pose proof (student_sf_range k (Rabs a)).
    pose proof (student_sf_upper_half k (Rabs a) (Rabs_pos a)). lra.
  - simpl np_abs. unfold t_sf. destruct (Z.leb_spec df 0); [lia|]. simpl. lra.
  - simpl np_abs. unfold t_sf. destruct (Z.leb_spec df 0); [lia|]. simpl. lra.
  - contradiction.
Qed.

Lemma two_norm_pdf_range x :
  x <> NaN ->
  exists p, fmul (Fin 2) (norm_pdf (np_abs x)) = Fin p /\ 0 <= p <= 2 * normal_pdf 0.
Proof.
  intro Hx. destruct x as [a | | |].
  - exists (2 * normal_pdf (Rabs a)). split; [reflexivity|].
    pose proof (normal_pdf_pos (Rabs a)). pose proof (normal_pdf_max (Rabs a)). lra.
  - exists (2 * 0). split; [reflexivity|]. pose proof (normal_pdf_pos 0). lra.
  - exists (2 * 0). split; [reflexivity|]. pose proof (normal_pdf_pos 0). lra.
  - contradiction.
Qed.

Lemma fneg_not_nan x : x <> NaN -> fneg x <> NaN.
Proof. destruct x; simpl; intros H; try discriminate; contradiction. Qed.

Lemma t_score_not_nan n m s mu :
  (0 < n)%Z -> ~ (s = 0 /\ m = mu) -> t_score n m s mu <> NaN.
Proof.
  intros Hn Hdeg.
  destruct (Req_dec s 0) as [-> | Hs].
  - assert (Hne : m <> mu) by (intro; apply Hdeg; split; [reflexivity | assumption]).
    destruct (t_score_infinite n m mu Hn Hne) as [-> | ->]; discriminate.
  - rewrite t_score_regular by assumption. discriminate.
Qed.

(** The two-sided t-test is twice the survival function at the absolute
    score, for every input. *)
Lemma t_two_sided_is_survival n m s mu alpha :
  p_value (t_test_two_sided n m s mu alpha) =
  fmul (Fin 2) (t_sf (np_abs (score (t_test_two_sided n m s mu alpha))) (n - 1)).
Proof. reflexivity. Qed.

Lemma t_score_zero n m s : (0 < n)%Z -> s <> 0 -> t_score n m s m = Fin 0.
Proof.
  intros Hn Hs. rewrite t_score_regular by assumption.
  f_equal. unfold Rdiv, Rminus. rewrite Rplus_opp_r. apply Rmult_0_l.
Qed.

Lemma evaluate_cases d tl n m s mu alpha r :
  evaluate d tl n m s mu alpha = Some r ->
  score r = t_score n m s mu /\
  alpha_value r = threshold tl alpha /\
  ((d = StudentT /\ tl = TwoSided
    /\ p_value r = fmul (Fin 2) (t_sf (np_abs (t_score n m s mu)) (n - 1)))
   \/ (d = StudentT /\ tl = RightTailed /\ p_value r = t_sf (t_score n m s mu) (n - 1))
   \/ (d = StudentT /\ tl = LeftTailed
       /\ p_value r = t_sf (fneg (t_score n m s mu)) (n - 1))
   \/ (d = Normal /\ tl = TwoSided
       /\ p_value r = fmul (Fin 2) (norm_pdf (np_abs (t_score n m s mu))))).
Proof.
  intro H. destruct d, tl; simpl in H; try discriminate;
    injection H as <-; (split; [reflexivity|]); (split; [reflexivity|]).
  - left. repeat split.
  - right. right. left. repeat split.
  - right. left. repeat split.
  - right. right. right. repeat split.
Qed.



(** * The claims *)

(** C1 (the code departs from the claim).  On a sample whose mean is the
    hypothesised mean the statistic is 0; the two-sided z-test cell
    returns twice the normal density at 0, [2/sqrt(2 pi) < 0.798], where
    twice the normal survival function at [|statistic|] is 1. *)
Theorem normal_two_sided_uses_density :
  let r := z_test_two_sided sample_n sample_mu sample_s sample_mu sample_alpha in
  evaluate Normal TwoSided sample_n sample_mu sample_s sample_mu sample_alpha
  = Some r /\
  score r = Fin 0 /\
  p_value r = Fin (2 * normal_pdf 0) /\
  2 * normal_pdf 0 < 0.798 /\
  fmul (Fin 2) (norm_sf (np_abs (score r))) = Fin 1.
Proof.
  assert (Hz : t_score sample_n sample_mu sample_s sample_mu = Fin 0).
  { apply t_score_zero; [unfold sample_n; lia | unfold sample_s; lra]. }
  cbv zeta. split; [reflexivity|].
  unfold z_test_two_sided. cbn [score p_value]. rewrite z_score_eq, Hz.
  split; [reflexivity|].
  cbn [np_abs norm_pdf norm_sf fmul]. rewrite Rabs_R0.
  split; [reflexivity|].
  split; [pose proof two_normal_pdf_0_bounds; lra|].
  rewrite normal_sf_0. f_equal. lra.
Qed.

(** C2.  For a sample with [n > 1] and [stddev > 0] every test of the
    notebook computes the statistic [(mean - mu) / (stddev / sqrt n)], and
    the t-test and the z-test compute the same statistic. *)
Theorem statistic_shared n m s mu alpha :
  (1 < n)%Z -> 0 < s ->
  (forall d tl r,
      evaluate d tl n m s mu alpha = Some r ->
      score r = Fin ((m - mu) / (s / sqrt (IZR n)))) /\
  (exists rt rz,
      evaluate StudentT TwoSided n m s mu alpha = Some rt /\
      evaluate Normal TwoSided n m s mu alpha = Some rz /\
      score rt = score rz).
Proof.
  intros Hn Hs. split.
  - intros d tl r H. destruct (evaluate_cases _ _ _ _ _ _ _ _ H) as [-> _].
    apply t_score_regular; [lia | lra].
  - exists (t_test_two_sided n m s mu alpha), (z_test_two_sided n m s mu alpha).
    repeat split.
Qed.

Lemma statistic_shared_witness :
  (1 < 65)%Z /\ 0 < 1 /\
  (forall d tl r,
      evaluate d tl 65 98 1 98.6 0.05 = Some r ->
      score r = Fin ((98 - 98.6) / (1 / sqrt 65))) /\
  (exists rt rz,
      evaluate StudentT TwoSided 65 98 1 98.6 0.05 = Some rt /\
      evaluate Normal TwoSided 65 98 1 98.6 0.05 = Some rz /\
      score rt = score rz).
Proof.
  split; [lia|]. split; [lra|].
  apply (statistic_shared 65 98 1 98.6 0.05); [lia | lra].
Defined.


(** C4 (the code departs from the claim).  With [n = 3] (two degrees of
    freedom), mean 0.5, standard deviation 1 and hypothesised mean 0 the
    statistic is [sqrt 3 / 2] in both tests; the two-sided z-test cell
    returns more than 0.49 and the two-sided t-test cell less than 0.48:
    the p-value of the Normal path is the larger one. *)
Theorem normal_two_sided_exceeds_student :
  let rt := t_test_two_sided 3 0.5 1 0 0.05 in
  let rz := z_test_two_sided 3 0.5 1 0 0.05 in
  evaluate StudentT TwoSided 3 0.5 1 0 0.05 = Some rt /\
  evaluate Normal TwoSided 3 0.5 1 0 0.05 = Some rz /\
  score rt = score rz /\
  exists pt pz,
    p_value rt = Fin pt /\ p_value rz = Fin pz /\ pt < 0.48 /\ 0.49 < pz.
Proof.
  cbv zeta. split; [reflexivity|]. split; [reflexivity|]. split; [reflexivity|].
  set (x := (0.5 - 0) / (1 / sqrt 3)).
  assert (Hs3 : 0 < sqrt 3) by (apply sqrt_lt_R0; lra).
  assert (Hx : x = sqrt 3 / 2).
  { unfold x. replace (0.5 - 0) with (1 / 2) by lra. field. lra. }
  assert (Hx0 : 0 <= x) by (rewrite Hx; lra).
  assert (Hx2 : x ^ 2 = IZR 3 / IZR 4).
  { rewrite Hx. replace ((sqrt 3 / 2) ^ 2) with (sqrt 3 * sqrt 3 / 4) by field.
    rewrite sqrt_sqrt by lra. reflexivity. }
  assert (Hsc : t_score 3 0.5 1 0 = Fin x).
  { apply t_score_regular; [lia | lra]. }
  unfold t_test_two_sided, z_test_two_sided. cbn [p_value].
  change (z_score 3 0.5 1 0) with (t_score 3 0.5 1 0).
  rewrite Hsc. cbn [np_abs norm_pdf fmul].
  rewrite t_sf_fin by lia. rewrite (Rabs_pos_eq x Hx0).
  change (Z.to_nat (3 - 1)) with (2 * 0 + 2)%nat.
  destruct (student_sf_even_Z 0 x 3 4 Hx0) as (sn & Hsn0 & Hsn2 & Hsf);
    [lia | lia | exact Hx2 |].
  exists (2 * student_sf (2 * 0 + 2) x), (2 * normal_pdf x).
  split; [reflexivity|]. split; [reflexivity|]. split.
  - rewrite Hsf.
    change (Z.of_nat (2 * 0 + 2) * 4 + 3)%Z with 11%Z in *.
    change (poly_oddZ 0 (Z.of_nat (2 * 0 + 2) * 4) 11) with 1%Z.
    change (11 ^ Z.of_nat 0 * even_fact 0)%Z with 1%Z.
    assert (0.52 < sn); [|lra].
    apply sq_lt_inv'; [lra | exact Hsn0 |]. rewrite Hsn2. lra.
  - unfold normal_pdf. pose proof sqrt_2PI_bounds as [Hl Hu].
    assert (He : 0.625 <= exp (- x² / 2)).
    { replace (- x² / 2) with (- (3 / 8)).
      - pose proof (exp_ineq1_le (- (3 / 8))). lra.
      - unfold Rsqr. replace (x * x) with (x ^ 2) by ring. rewrite Hx2. lra. }
    assert (Hq : 0.2493 < exp (- x² / 2) / sqrt (2 * PI)); [|lra].
    apply Rmult_lt_reg_r with (sqrt (2 * PI)); [lra|].
    unfold Rdiv. rewrite Rmult_assoc, Rinv_l by lra. lra.
Qed.

(** C5.  On the notebook's sample the two-sided t-test has statistic
    [-5.715757], p-value [3.08384e-07] (both to the digits given) and the
    decision is to reject at [alpha = 0.05]. *)
Theorem sample_two_sided_t_test :
  exists t p,
    evaluate StudentT TwoSided sample_n sample_m sample_s sample_mu sample_alpha
    = Some (mkReport (Fin t) (Fin p) sample_alpha) /\
    Rabs (t - (-5.715757)) < 5e-7 /\
    Rabs (p - 3.08384e-7) < 5e-13 /\
    reject (mkReport (Fin t) (Fin p) sample_alpha) = true.
Proof.
  pose proof sample_t_neg as Hneg.
  pose proof sample_t_bounds as [Htl Htu].
  pose proof sample_sf_bounds as [Hpl Hpu].
  exists sample_t, (2 * student_sf 64 (- sample_t)).
  split.
  - cbn [evaluate]. unfold t_test_two_sided. rewrite sample_score.
    cbn [np_abs]. rewrite t_sf_fin by (unfold sample_n; lia).
    rewrite Rabs_left by exact Hneg. reflexivity.
  - split; [apply Rabs_def1; lra|]. split; [apply Rabs_def1; lra|].
    unfold reject. cbn [p_value alpha_value]. apply fleb_fin_true.
    unfold sample_alpha. lra.
Qed.




(** C7, counterexample.  With a zero standard deviation and the mean on
    the hypothesised mean the p-value is [nan], not a number of
    [[0, 1]]. *)
Lemma p_value_nan_counterexample :
  let r := t_test_two_sided 10 5 0 5 0.05 in
  evaluate StudentT TwoSided 10 5 0 5 0.05 = Some r /\
  p_value r = NaN /\
  ~ in_unit_interval (p_value r).
Proof.
  assert (Hp : p_value (t_test_two_sided 10 5 0 5 0.05) = NaN).
  { unfold t_test_two_sided. cbn [p_value]. rewrite t_score_degenerate.
    cbn [np_abs]. rewrite t_sf_nan. reflexivity. }
  cbv zeta. split; [reflexivity|]. split; [exact Hp|].
  rewrite Hp. simpl. tauto.
Qed.

(** C7, amended.  For [n > 1] and [stddev >= 0], unless the standard
    deviation is 0 with the mean on the hypothesised mean, the p-value of
    every test is a number of the closed interval [[0, 1]]; in the
    excepted case it is [nan]. *)
Theorem p_value_in_unit_interval d tl n m s mu alpha r :
  (1 < n)%Z -> 0 <= s ->
  evaluate d tl n m s mu alpha = Some r ->
  (~ (s = 0 /\ m = mu) -> in_unit_interval (p_value r)) /\
  (s = 0 /\ m = mu -> p_value r = NaN).
Proof.
  intros Hn Hs H.
  destruct (evaluate_cases _ _ _ _ _ _ _ _ H) as (_ & _ & Hp).
  split.
  - intro Hdeg.
    assert (Hsc : t_score n m s mu <> NaN)
      by (apply t_score_not_nan; [lia | exact Hdeg]).
    destruct Hp as [(_ & _ & ->) | [(_ & _ & ->) | [(_ & _ & ->) | (_ & _ & ->)]]].
    + apply two_t_sf_abs_range; [lia | exact Hsc].
    + apply t_sf_range; [lia | exact Hsc].
    + apply t_sf_range; [lia | apply fneg_not_nan; exact Hsc].
    + destruct (two_norm_pdf_range _ Hsc) as (p & -> & Hp0 & Hp1).
      simpl. pose proof two_normal_pdf_0_bounds. lra.
  - intros [-> ->]. rewrite t_score_degenerate in Hp.
    destruct Hp as [(_ & _ & ->) | [(_ & _ & ->) | [(_ & _ & ->) | (_ & _ & ->)]]];
      cbn [np_abs fneg norm_pdf fmul]; rewrite ?t_sf_nan; reflexivity.
Qed.

Lemma p_value_in_unit_interval_witness :
  let r := t_test_right_tail 10 5 0 4 0.05 in
  (1 < 10)%Z /\ 0 <= 0 /\
  evaluate StudentT RightTailed 10 5 0 4 0.05 = Some r /\
  (~ (0 = 0 /\ 5 = 4) -> in_unit_interval (p_value r)) /\
  (0 = 0 /\ 5 = 4 -> p_value r = NaN).
Proof.
  split; [lia|]. split; [lra|]. split; [reflexivity|].
  apply (p_value_in_unit_interval StudentT RightTailed 10 5 0 4 0.05);
    [lia | lra | reflexivity].
Defined.

(** C9, counterexample.  For [n = 10], mean 5, standard deviation 0 and
    hypothesised mean 5 the evaluation returns a result, but the statistic
    is [nan] (not 0) and the two-sided p-value is [nan] (not 1). *)
Lemma degenerate_counterexample :
  let r := t_test_two_sided 10 5 0 5 0.05 in
  evaluate StudentT TwoSided 10 5 0 5 0.05 = Some r /\
  score r <> Fin 0 /\
  p_value r <> Fin 1.
Proof.
  cbv zeta. split; [reflexivity|].
  unfold t_test_two_sided. cbn [score p_value]. rewrite t_score_degenerate.
  cbn [np_abs]. rewrite t_sf_nan. split; discriminate.
Qed.

(** C9, amended.  With a zero standard deviation and the mean on the
    hypothesised mean the evaluation does not fail: it returns a result
    whose statistic is [nan] (the quotient 0/0), whose p-value is [nan]
    and whose decision is not to reject. *)
Theorem degenerate_is_nan d tl n m alpha :
  d = StudentT \/ tl = TwoSided ->
  exists r,
    evaluate d tl n m 0 m alpha = Some r /\
    score r = NaN /\ p_value r = NaN /\ reject r = false.
Proof.
  intro Hsup.
  assert (Hex : exists r, evaluate d tl n m 0 m alpha = Some r).
  { destruct d, tl; cbn [evaluate]; eauto; destruct Hsup; discriminate. }
  destruct Hex as [r Hr]. exists r. split; [exact Hr|].
  destruct (evaluate_cases _ _ _ _ _ _ _ _ Hr) as (Hs & _ & Hp).
  rewrite t_score_degenerate in Hs, Hp.
  assert (HN : p_value r = NaN).
  { destruct Hp as [(_ & _ & ->) | [(_ & _ & ->) | [(_ & _ & ->) | (_ & _ & ->)]]];
      cbn [np_abs fneg norm_pdf fmul]; rewrite ?t_sf_nan; reflexivity. }
  split; [exact Hs|]. split; [exact HN|]. unfold reject. rewrite HN. reflexivity.
Qed.

Lemma degenerate_is_nan_witness :
  (Normal = StudentT \/ TwoSided = TwoSided) /\
  exists r,
    evaluate Normal TwoSided 10 5 0 5 0.05 = Some r /\
    score r = NaN /\ p_value r = NaN /\ reject r = false.
Proof.
  split; [right; reflexivity|].
  apply (degenerate_is_nan Normal TwoSided 10 5 0.05).
  right. reflexivity.
Defined.

(** C10.  The two-sided z-test cell returns [2 * norm.pdf(|z|)] at its
    score [z]: for [n > 0] and a non-zero standard deviation that is the
    number [2 * normal_pdf |(m - mu) / (s / sqrt n)|], which is at most
    [2 / sqrt (2 pi)], a number between 0.7978 and 0.7980; when the mean
    is the hypothesised mean (statistic 0) the cell returns exactly that
    bound, not 1; and whatever the sample, the p-value is [nan] (exactly
    when the score is) or a number of [[0, 2 / sqrt (2 pi)]], never above
    0.8. *)
Theorem normal_two_sided_bound :
  (forall z : R,
      fmul (Fin 2) (norm_pdf (np_abs (Fin z))) = Fin (2 * normal_pdf (Rabs z)) /\
      2 * normal_pdf (Rabs z) <= 2 / sqrt (2 * PI)) /\
  fmul (Fin 2) (norm_pdf (np_abs (Fin 0))) = Fin (2 / sqrt (2 * PI)) /\
  0.7978 < 2 / sqrt (2 * PI) < 0.7980 /\
  (forall n m s mu alpha,
      let r := z_test_two_sided n m s mu alpha in
      evaluate Normal TwoSided n m s mu alpha = Some r /\
      score r = z_score n m s mu /\
      p_value r = fmul (Fin 2) (norm_pdf (np_abs (z_score n m s mu))) /\
      ((0 < n)%Z -> s <> 0 ->
       score r = Fin ((m - mu) / (s / sqrt (IZR n))) /\
       p_value r = Fin (2 * normal_pdf (Rabs ((m - mu) / (s / sqrt (IZR n))))) /\
       2 * normal_pdf (Rabs ((m - mu) / (s / sqrt (IZR n)))) <= 2 / sqrt (2 * PI)) /\
      ((0 < n)%Z -> s <> 0 -> m = mu ->
       score r = Fin 0 /\ p_value r = Fin (2 / sqrt (2 * PI))) /\
      (p_value r = NaN <-> z_score n m s mu = NaN) /\
      (p_value r = NaN \/
       exists p, p_value r = Fin p /\ 0 <= p <= 2 / sqrt (2 * PI) /\ p < 0.8)).
Proof.
  assert (Heq : 2 * normal_pdf 0 = 2 / sqrt (2 * PI)).
  { rewrite normal_pdf_0. unfold Rdiv. ring. }
  pose proof two_normal_pdf_0_bounds as Hb.
  assert (Hmax : forall z, 2 * normal_pdf (Rabs z) <= 2 / sqrt (2 * PI)).
  { intro z. rewrite <- Heq. pose proof (normal_pdf_max (Rabs z)). lra. }
  split; [|split; [|split]].
  - intro z. split; [reflexivity | apply Hmax].
  - cbn [np_abs norm_pdf fmul]. rewrite Rabs_R0, Heq. reflexivity.
  - rewrite <- Heq. exact Hb.
  - intros n m s mu alpha. cbv zeta.
    split; [reflexivity|]. split; [reflexivity|]. split; [reflexivity|].
    unfold z_test_two_sided. cbn [p_value score].
    change (z_score n m s mu) with (t_score n m s mu).
    split; [|split; [|split]].
    + intros Hn Hs. rewrite t_score_regular by assumption.
      split; [reflexivity|]. split; [reflexivity | apply Hmax].
    + intros Hn Hs ->. rewrite t_score_zero by assumption.
      split; [reflexivity|].
      cbn [np_abs norm_pdf fmul]. rewrite Rabs_R0, Heq. reflexivity.
    + destruct (t_score n m s mu); cbn [np_abs norm_pdf fmul];
        split; intro H; try reflexivity; discriminate.
    + destruct (t_score n m s mu) as [a | | |] eqn:Hz.
      * right. destruct (two_norm_pdf_range (Fin a)) as (p & Hp & Hp0 & Hp1);
          [discriminate|].
        exists p. split; [exact Hp|]. rewrite <- Heq. lra.
      * right. destruct (two_norm_pdf_range PInf) as (p & Hp & Hp0 & Hp1);
          [discriminate|].
        exists p. split; [exact Hp|]. rewrite <- Heq. lra.
      * right. destruct (two_norm_pdf_range NInf) as (p & Hp & Hp0 & Hp1);
          [discriminate|].
        exists p. split; [exact Hp|]. rewrite <- Heq. lra.
      * left. reflexivity.
Qed.

(** * Further properties of the cells *)

(** ** Sums over the sample *)

Lemma Rsum_perm xs ys : Permutation xs ys -> Rsum xs = Rsum ys.
Proof.
  induction 1 as [| x xs ys _ IH | x y xs | xs ys zs _ IH1 _ IH2]; simpl.
  - reflexivity.
  - rewrite IH. reflexivity.
  - ring.
  - rewrite IH1. exact IH2.
Qed.

Lemma sq_dev_perm c xs ys : Permutation xs ys -> sq_dev c xs = sq_dev c ys.
Proof. intro H. unfold sq_dev. apply Rsum_perm. apply Permutation_map. exact H. Qed.

Lemma Rsum_affine a b xs :
  Rsum (map (fun x => a * x + b) xs) = a * Rsum xs + b * INR (length xs).
Proof.
  induction xs as [|x xs IH].
  - simpl. ring.
  - cbn [map Rsum fold_right length]. fold (Rsum (map (fun x => a * x + b) xs)).
    fold (Rsum xs). rewrite IH, S_INR. ring.
Qed.

Lemma sq_dev_affine a b c xs :
  sq_dev (a * c + b) (map (fun x => a * x + b) xs) = a ^ 2 * sq_dev c xs.
Proof.
  unfold sq_dev. induction xs as [|x xs IH].
  - simpl. ring.
  - cbn [map Rsum fold_right]. unfold Rsum in IH. rewrite IH. ring.
Qed.

Lemma Rsum_bounds lo hi xs :
  (forall x, In x xs -> lo <= x <= hi) ->
  INR (length xs) * lo <= Rsum xs <= INR (length xs) * hi.
Proof.
  induction xs as [|x xs IH]; intro H.
  - simpl. lra.
  - cbn [Rsum fold_right length]. fold (Rsum xs). rewrite S_INR.
    destruct (H x (or_introl eq_refl)) as [Hl Hu].
    destruct IH as [IHl IHu]; [intros y Hy; apply H; right; exact Hy|]. lra.
Qed.

Lemma sq_dev_nonneg c xs : 0 <= sq_dev c xs.
Proof.
  unfold sq_dev. induction xs as [|x xs IH].
  - simpl. lra.
  - cbn [map Rsum fold_right]. unfold Rsum in IH. pose proof (pow2_ge_0 (x - c)). lra.
Qed.

Lemma sq_dev_zero c xs : sq_dev c xs = 0 <-> (forall x, In x xs -> x = c).
Proof.
  induction xs as [|x xs IH].
  - split; [intros _ y []| reflexivity].
  - unfold sq_dev. cbn [map Rsum fold_right]. fold (Rsum (map (fun x => (x - c) ^ 2) xs)).
    fold (sq_dev c xs).
    pose proof (pow2_ge_0 (x - c)) as H1. pose proof (sq_dev_nonneg c xs) as H2.
    split.
    + intros H y [<- | Hy].
      * assert (Hz : (x - c) ^ 2 = 0) by lra.
        assert (x - c = 0) by nra. lra.
      * apply IH; [lra | exact Hy].
    + intro H. rewrite (H x (or_introl eq_refl)).
      replace (sq_dev c xs) with 0.
      * ring.
      * symmetry. apply IH. intros y Hy. apply H. right. exact Hy.
Qed.

Lemma Rsum_constant c xs :
  (forall x, In x xs -> x = c) -> Rsum xs = INR (length xs) * c.
Proof.
  intro H. destruct (Rsum_bounds c c xs) as [Hl Hu]; [|lra].
  intros x Hx. rewrite (H x Hx). lra.
Qed.

(** ** The summary cell, unfolded *)

Lemma summary_some body :
  (2 <= length (male_temps body))%nat ->
  summary body =
  Some (mkSummary (Z.of_nat (length (male_temps body)))
          (Rsum (male_temps body) / INR (length (male_temps body)))
          (sqrt (sq_dev (Rsum (male_temps body) / INR (length (male_temps body)))
                   (male_temps body)
                 / INR (length (male_temps body) - 1)))
          (err (sqrt (sq_dev (Rsum (male_temps body) / INR (length (male_temps body)))
                        (male_temps body)
                      / INR (length (male_temps body) - 1)))
               (Z.of_nat (length (male_temps body))))).
Proof.
  intro H. unfold summary, mean, stdev.
  destruct (male_temps body) as [|x xs] eqn:E; [simpl in H; lia|].
  destruct (Nat.ltb_spec (length (x :: xs)) 2) as [Hlt | _]; [lia|].
  reflexivity.
Qed.

Lemma summary_none body :
  (length (male_temps body) < 2)%nat -> summary body = None.
Proof.
  intro H. unfold summary, mean, stdev.
  destruct (male_temps body) as [|x xs]; [reflexivity|].
  destruct (Nat.ltb_spec (length (x :: xs)) 2) as [_ | Hge]; [reflexivity | lia].
Qed.

Lemma summary_inv body sm :
  summary body = Some sm ->
  let xs := male_temps body in
  (2 <= length xs)%nat /\
  sample_size sm = Z.of_nat (length xs) /\
  sample_mean sm = Rsum xs / INR (length xs) /\
  sample_stdev sm = sqrt (sq_dev (sample_mean sm) xs / INR (length xs - 1)) /\
  std_error sm = err (sample_stdev sm) (sample_size sm).
Proof.
  intros H xs.
  destruct (Nat.lt_ge_cases (length (male_temps body)) 2) as [Hlt | Hge].
  - rewrite summary_none in H by exact Hlt. discriminate.
  - rewrite summary_some in H by exact Hge. injection H as <-.
    cbn [sample_size sample_mean sample_stdev std_error]. fold xs.
    repeat split. exact Hge.
Qed.

Lemma INR_pred_pos k : (2 <= k)%nat -> 0 < INR (k - 1).
Proof. intro H. apply lt_0_INR. lia. Qed.

Lemma INR_len_pos k : (2 <= k)%nat -> 0 < INR k.
Proof. intro H. apply lt_0_INR. lia. Qed.

(** The standard deviation of the summary is zero exactly on constant
    data, and then the mean is that constant. *)
Lemma summary_stdev_zero body sm :
  summary body = Some sm ->
  (sample_stdev sm = 0 <-> forall x, In x (male_temps body) -> x = sample_mean sm).
Proof.
  intro H. destruct (summary_inv _ _ H) as (Hlen & _ & _ & Hs & _).
  pose proof (INR_pred_pos _ Hlen) as Hp.
  pose proof (sq_dev_nonneg (sample_mean sm) (male_temps body)) as Hn.
  rewrite <- sq_dev_zero. rewrite Hs. split.
  - intro Hz. apply sqrt_eq_0 in Hz.
    + apply Rmult_integral in Hz. destruct Hz as [Hz | Hz]; [exact Hz|].
      pose proof (Rinv_0_lt_compat _ Hp). lra.
    + apply Rmult_le_pos; [exact Hn|]. left. apply Rinv_0_lt_compat. exact Hp.
  - intros ->. unfold Rdiv. rewrite Rmult_0_l. apply sqrt_0.
Qed.

Lemma summary_degenerate_iff body sm mu :
  summary body = Some sm ->
  (sample_stdev sm = 0 /\ sample_mean sm = mu
   <-> forall x, In x (male_temps body) -> x = mu).
Proof.
  intro H. destruct (summary_inv _ _ H) as (Hlen & _ & Hm & _ & _).
  pose proof (INR_len_pos _ Hlen) as Hp.
  split.
  - intros [Hs <-]. apply (summary_stdev_zero _ _ H). exact Hs.
  - intro Hall.
    assert (Hmu : sample_mean sm = mu).
    { rewrite Hm, (Rsum_constant mu) by exact Hall. field. lra. }
    split; [|exact Hmu].
    apply (summary_stdev_zero _ _ H). rewrite Hmu. exact Hall.
Qed.

(** ** Monotonicity of the reference functions *)

Lemma student_sf_decreasing k x y :
  x < y -> student_sf (S k) y < student_sf (S k) x.
Proof.
  intro Hxy.
  assert (Hn : 0 < INR (S k)) by (apply lt_0_INR; lia).
  assert (Hs : 0 < sqrt (INR (S k))) by (apply sqrt_lt_R0; assumption).
  pose proof (wallis_pos k) as Hw.
  rewrite !student_sf_closed. unfold t_half. cbn [pred].
  assert (Hat : atan (x / sqrt (INR (S k))) < atan (y / sqrt (INR (S k)))).
  { apply atan_increasing. unfold Rdiv. apply Rmult_lt_compat_r; [|exact Hxy].
    apply Rinv_0_lt_compat. exact Hs. }
  pose proof (atan_bound (x / sqrt (INR (S k)))) as [Hxl _].
  pose proof (atan_bound (y / sqrt (INR (S k)))) as [_ Hyu].
  assert (Hc : cos_int k (atan (x / sqrt (INR (S k))))
               < cos_int k (atan (y / sqrt (INR (S k)))))
    by (apply cos_int_lt; lra).
  assert (Hq : cos_int k (atan (x / sqrt (INR (S k)))) / (2 * wallis k)
               < cos_int k (atan (y / sqrt (INR (S k)))) / (2 * wallis k)).
  { unfold Rdiv. apply Rmult_lt_compat_r; [|exact Hc].
    apply Rinv_0_lt_compat. lra. }
  lra.
Qed.

Lemma student_sf_half_iff k x : 0 <= x -> (student_sf (S k) x = 1 / 2 <-> x = 0).
Proof.
  intro Hx. split.
  - intro H. destruct Hx as [Hx | <-]; [|reflexivity].
    pose proof (student_sf_decreasing k 0 x Hx) as Hd.
    rewrite student_sf_0 in Hd. lra.
  - intros ->. apply student_sf_0.
Qed.

Lemma normal_pdf_decreasing x y :
  0 <= x -> x < y -> normal_pdf y < normal_pdf x.
Proof.
  intros Hx Hxy. unfold normal_pdf, Rdiv.
  pose proof sqrt_2PI_bounds.
  apply Rmult_lt_compat_r; [apply Rinv_0_lt_compat; lra|].
  apply exp_increasing. unfold Rsqr. nra.
Qed.

Lemma normal_pdf_max_iff x : 0 <= x -> (normal_pdf x = normal_pdf 0 <-> x = 0).
Proof.
  intro Hx. split.
  - intro H. destruct Hx as [Hx | <-]; [|reflexivity].
    pose proof (normal_pdf_decreasing 0 x (Rle_refl 0) Hx). lra.
  - intros ->. reflexivity.
Qed.

(** ** The score under a mirror image and a change of unit *)

Lemma fdiv_opp a y : fdiv (Fin (- a)) y = fneg (fdiv (Fin a) y).
Proof.
  destruct y as [b | | |]; simpl.
  - destruct (Ris_zero b).
    + destruct (Rtotal_order a 0) as [Hlt | [-> | Hgt]].
      * rewrite (Rsign_pos_true (- a)), (Rsign_pos_false a), (Rsign_neg_true a) by lra.
        reflexivity.
      * rewrite Ropp_0, (Rsign_pos_false 0), (Rsign_neg_false 0) by lra. reflexivity.
      * rewrite (Rsign_pos_false (- a)), (Rsign_neg_true (- a)), (Rsign_pos_true a)
          by lra.
        reflexivity.
    + simpl. f_equal. unfold Rdiv. ring.
  - f_equal. ring.
  - f_equal. ring.
  - reflexivity.
Qed.

Lemma t_score_mirror n m s mu :
  t_score n (2 * mu - m) s mu = fneg (t_score n m s mu).
Proof.
  unfold t_score. rewrite <- fdiv_opp. f_equal. f_equal. ring.
Qed.

Lemma np_abs_fneg x : np_abs (fneg x) = np_abs x.
Proof. destruct x; simpl; try reflexivity. rewrite Rabs_Ropp. reflexivity. Qed.

Lemma fneg_involutive x : fneg (fneg x) = x.
Proof. destruct x; simpl; try reflexivity. rewrite Ropp_involutive. reflexivity. Qed.

Lemma Rsign_pos_scale a x : 0 < a -> Rsign_pos (a * x) = Rsign_pos x.
Proof.
  intro Ha. unfold Rsign_pos.
  destruct (Rlt_dec 0 (a * x)), (Rlt_dec 0 x); try reflexivity; exfalso; nra.
Qed.

Lemma Rsign_neg_scale a x : 0 < a -> Rsign_neg (a * x) = Rsign_neg x.
Proof.
  intro Ha. unfold Rsign_neg.
  destruct (Rlt_dec (a * x) 0), (Rlt_dec x 0); try reflexivity; exfalso; nra.
Qed.

Lemma Ris_zero_iff r : Ris_zero r = true <-> r = 0.
Proof.
  unfold Ris_zero. destruct (Req_dec_T r 0); split; intro H;
    try reflexivity; try assumption; try discriminate; contradiction.
Qed.

Lemma Ris_zero_iff_false r : Ris_zero r = false -> r <> 0.
Proof. intros H Hr. apply Ris_zero_iff in Hr. congruence. Qed.

Lemma fdiv_zero_den a :
  fdiv (Fin a) (Fin 0) =
  if Rsign_pos a then PInf else if Rsign_neg a then NInf else NaN.
Proof. simpl. rewrite Ris_zero_true. reflexivity. Qed.

Lemma fdiv_scale a x s q :
  0 < a ->
  fdiv (Fin (a * x)) (fdiv (Fin (a * s)) q) = fdiv (Fin x) (fdiv (Fin s) q).
Proof.
  intro Ha.
  assert (Hzero : forall y, fdiv (Fin (a * y)) (Fin 0) = fdiv (Fin y) (Fin 0)).
  { intro y. rewrite !fdiv_zero_den, Rsign_pos_scale, Rsign_neg_scale by exact Ha.
    reflexivity. }
  destruct q as [b | | |];
    [| exact (Hzero x) | exact (Hzero x) | reflexivity].
  destruct (Req_dec b 0) as [-> | Hb].
  - rewrite (Hzero s), fdiv_zero_den.
    destruct (Rsign_pos s); [reflexivity|]. destruct (Rsign_neg s); reflexivity.
  - rewrite !(fdiv_fin _ b) by exact Hb.
    destruct (Req_dec s 0) as [-> | Hs].
    + replace (a * 0 / b) with 0 by (unfold Rdiv; ring).
      replace (0 / b) with 0 by (unfold Rdiv; ring).
      apply Hzero.
    + rewrite !fdiv_fin.
      * f_equal. field. repeat split; lra.
      * unfold Rdiv. apply Rmult_integral_contrapositive_currified; [exact Hs|].
        apply Rinv_neq_0_compat. exact Hb.
      * unfold Rdiv. apply Rmult_integral_contrapositive_currified;
          [nra | apply Rinv_neq_0_compat; exact Hb].
Qed.

Lemma male_temps_convert a b body :
  male_temps (convert a b body) = map (fun x => a * x + b) (male_temps body).
Proof.
  unfold male_temps, convert. induction body as [|r body IH].
  - reflexivity.
  - cbn [map filter sex]. destruct (sex r =? 0)%Z.
    + cbn [map temp]. rewrite IH. reflexivity.
    + exact IH.
Qed.

Lemma t_score_convert a b n m s mu :
  0 < a -> t_score n (a * m + b) (a * s) (a * mu + b) = t_score n m s mu.
Proof.
  intro Ha. unfold t_score, err.
  replace (a * m + b - (a * mu + b)) with (a * (m - mu)) by ring.
  apply fdiv_scale. exact Ha.
Qed.

Lemma evaluate_convert a b d tl n m s mu alpha :
  0 < a ->
  evaluate d tl n (a * m + b) (a * s) (a * mu + b) alpha = evaluate d tl n m s mu alpha.
Proof.
  intro Ha. pose proof (t_score_convert a b n m s mu Ha) as Ht.
  destruct d, tl; cbn [evaluate]; try reflexivity; f_equal;
    unfold t_test_two_sided, t_test_left_tail, t_test_right_tail, z_test_two_sided;
    change (z_score n (a * m + b) (a * s) (a * mu + b))
      with (t_score n (a * m + b) (a * s) (a * mu + b));
    change (z_score n m s mu) with (t_score n m s mu);
    rewrite Ht; reflexivity.
Qed.

Lemma all_or_exists_other (mu : R) xs :
  (forall x, In x xs -> x = mu) \/ (exists x, In x xs /\ x <> mu).
Proof.
  induction xs as [|x xs [IH | (y & Hy & Hne)]].
  - left. intros x [].
  - destruct (Req_dec x mu) as [-> | Hne].
    + left. intros y [<- | Hy]; [reflexivity | apply IH; exact Hy].
    + right. exists x. split; [left; reflexivity | exact Hne].
  - right. exists y. split; [right; exact Hy | exact Hne].
Qed.

Lemma p_value_regular d tl n m s mu alpha r :
  (1 < n)%Z -> t_score n m s mu <> NaN ->
  evaluate d tl n m s mu alpha = Some r ->
  in_unit_interval (p_value r).
Proof.
  intros Hn Hsc H.
  destruct (evaluate_cases _ _ _ _ _ _ _ _ H) as (_ & _ & Hp).
  destruct Hp as [(_ & _ & ->) | [(_ & _ & ->) | [(_ & _ & ->) | (_ & _ & ->)]]].
  - apply two_t_sf_abs_range; [lia | exact Hsc].
  - apply t_sf_range; [lia | exact Hsc].
  - apply t_sf_range; [lia | apply fneg_not_nan; exact Hsc].
  - destruct (two_norm_pdf_range _ Hsc) as (p & -> & Hp0 & Hp1).
    simpl. pose proof two_normal_pdf_0_bounds. lra.
Qed.

Lemma p_value_degenerate d tl n m alpha r :
  evaluate d tl n m 0 m alpha = Some r -> p_value r = NaN.
Proof.
  intro H. destruct (evaluate_cases _ _ _ _ _ _ _ _ H) as (_ & _ & Hp).
  rewrite t_score_degenerate in Hp.
  destruct Hp as [(_ & _ & ->) | [(_ & _ & ->) | [(_ & _ & ->) | (_ & _ & ->)]]];
    cbn [np_abs fneg norm_pdf fmul]; rewrite ?t_sf_nan; reflexivity.
Qed.

(** The one-sided p-values at a score that is a number or an infinity. *)
Lemma one_sided_pair x df :
  (0 < df)%Z -> x <> NaN ->
  exists pl pr,
    t_sf (fneg x) df = Fin pl /\ t_sf x df = Fin pr /\
    pl + pr = 1 /\ 0 <= pl <= 1 /\
    fmul (Fin 2) (t_sf (np_abs x) df) = Fin (2 * Rmin pl pr).
Proof.
  intros Hdf Hx. destruct (to_nat_succ df Hdf) as [k Hk].
  destruct x as [a | | |]; [| | |contradiction].
  - exists (student_sf (S k) (- a)), (student_sf (S k) a).
    cbn [fneg np_abs]. rewrite !t_sf_fin, Hk by exact Hdf.
    pose proof (student_sf_opp k a) as Ho.
    pose proof (student_sf_range k a) as Hr.
    split; [reflexivity|]. split; [reflexivity|]. split; [lra|]. split; [lra|].
    cbn [fmul]. f_equal. f_equal.
    destruct (Rle_dec 0 a) as [Ha | Ha].
    + rewrite Rabs_pos_eq by exact Ha.
      pose proof (student_sf_upper_half k a Ha). rewrite Rmin_right; lra.
    + rewrite Rabs_left by lra.
      assert (Hn : 0 <= - a) by lra.
      pose proof (student_sf_upper_half k (- a) Hn). rewrite Rmin_left; lra.
  - exists 1, 0. cbn [fneg np_abs]. unfold t_sf.
    destruct (Z.leb_spec df 0); [lia|].
    repeat split; try lra. cbn [fmul]. f_equal. rewrite Rmin_right; lra.
  - exists 0, 1. cbn [fneg np_abs]. unfold t_sf.
    destruct (Z.leb_spec df 0); [lia|].
    repeat split; try lra. cbn [fmul]. f_equal. rewrite Rmin_left; lra.
Qed.

Lemma abs_score_lt n m1 m2 s mu :
  (0 < n)%Z -> 0 < s -> Rabs (m1 - mu) < Rabs (m2 - mu) ->
  Rabs ((m1 - mu) / (s / sqrt (IZR n))) < Rabs ((m2 - mu) / (s / sqrt (IZR n))).
Proof.
  intros Hn Hs Hlt.
  destruct (np_sqrt_pos n Hn) as [_ Hq].
  assert (He : 0 < s / sqrt (IZR n)) by (apply Rdiv_lt_0_compat; assumption).
  unfold Rdiv at 1 3. rewrite !Rabs_mult.
  apply Rmult_lt_compat_r; [|exact Hlt].
  apply Rabs_pos_lt. apply Rinv_neq_0_compat. lra.
Qed.

Lemma abs_score_zero n m s mu :
  (0 < n)%Z -> 0 < s ->
  (Rabs ((m - mu) / (s / sqrt (IZR n))) = 0 <-> m = mu).
Proof.
  intros Hn Hs.
  destruct (np_sqrt_pos n Hn) as [_ Hq].
  assert (He : 0 < s / sqrt (IZR n)) by (apply Rdiv_lt_0_compat; assumption).
  split.
  - intro H. destruct (Req_dec m mu) as [Heq | Hne]; [exact Heq|].
    exfalso. apply (Rabs_no_R0 ((m - mu) / (s / sqrt (IZR n)))); [|exact H].
    unfold Rdiv. apply Rmult_integral_contrapositive_currified; [lra|].
    apply Rinv_neq_0_compat. lra.
  - intros ->. unfold Rdiv, Rminus. rewrite Rplus_opp_r, Rmult_0_l. apply Rabs_R0.
Qed.

(** ** The summary cell *)

(** X1.  The summary cell raises exactly when fewer than two rows have
    [sex == 0]; otherwise [n >= 2] is the number of those rows, the
    standard deviation is not negative and the standard error is the
    number [s / sqrt n], not negative either. *)
Theorem summary_outcome body :
  match summary body with
  | None => (length (male_temps body) < 2)%nat
  | Some sm =>
      (2 <= sample_size sm)%Z /\
      sample_size sm = Z.of_nat (length (male_temps body)) /\
      0 <= sample_stdev sm /\
      std_error sm = Fin (sample_stdev sm / sqrt (IZR (sample_size sm))) /\
      0 <= sample_stdev sm / sqrt (IZR (sample_size sm))
  end.
Proof.
  destruct (summary body) as [sm|] eqn:E.
  - destruct (summary_inv _ _ E) as (Hlen & Hn & _ & Hs & He).
    assert (Hn2 : (2 <= sample_size sm)%Z) by lia.
    assert (Hs0 : 0 <= sample_stdev sm) by (rewrite Hs; apply sqrt_pos).
    destruct (np_sqrt_pos (sample_size sm)) as [_ Hq]; [lia|].
    split; [exact Hn2|]. split; [exact Hn|]. split; [exact Hs0|]. split.
    + rewrite He. apply err_regular. lia.
    + apply Rmult_le_pos; [exact Hs0|]. left. apply Rinv_0_lt_compat. exact Hq.
  - destruct (Nat.lt_ge_cases (length (male_temps body)) 2) as [Hlt | Hge];
      [exact Hlt|].
    rewrite summary_some in E by exact Hge. discriminate.
Qed.

(** X2.  The summary depends on the table only through the temperatures of
    the rows with [sex == 0], whatever their order: the other rows, the
    [bpm] column and the order of the rows do not matter. *)
Theorem summary_of_permutation body1 body2 :
  Permutation (male_temps body1) (male_temps body2) ->
  summary body1 = summary body2.
Proof.
  intro HP.
  pose proof (Permutation_length HP) as Hlen.
  pose proof (Rsum_perm _ _ HP) as Hsum.
  destruct (Nat.lt_ge_cases (length (male_temps body1)) 2) as [Hlt | Hge].
  - rewrite !summary_none by lia. reflexivity.
  - rewrite !summary_some by lia.
    rewrite <- Hlen, <- Hsum.
    rewrite (sq_dev_perm _ _ _ HP). reflexivity.
Qed.

Lemma summary_of_permutation_witness :
  let body1 := [mkRow 97 0 70; mkRow 99 1 60; mkRow 98 0 71] in
  let body2 := [mkRow 98 0 80; mkRow 97 0 81] in
  Permutation (male_temps body1) (male_temps body2) /\
  summary body1 = summary body2.
Proof.
  assert (HP : Permutation
                 (male_temps [mkRow 97 0 70; mkRow 99 1 60; mkRow 98 0 71])
                 (male_temps [mkRow 98 0 80; mkRow 97 0 81])).
  { apply perm_swap. }
  split; [exact HP|].
  apply (summary_of_permutation
           [mkRow 97 0 70; mkRow 99 1 60; mkRow 98 0 71]
           [mkRow 98 0 80; mkRow 97 0 81]).
  exact HP.
Defined.

(** X3.  The standard deviation of the summary is 0 exactly when all the
    temperatures of the sample are equal. *)
Theorem stdev_zero_iff_constant body sm :
  summary body = Some sm ->
  (sample_stdev sm = 0 <->
   forall x y, In x (male_temps body) -> In y (male_temps body) -> x = y).
Proof.
  intro H. destruct (summary_inv _ _ H) as (Hlen & _ & Hm & _ & _).
  pose proof (INR_len_pos _ Hlen) as Hp.
  rewrite (summary_stdev_zero _ _ H). split.
  - intros Hall x y Hx Hy. rewrite (Hall x Hx), (Hall y Hy). reflexivity.
  - intros Hpair x Hx.
    rewrite Hm, (Rsum_constant x).
    + field. lra.
    + intros y Hy. apply Hpair; assumption.
Qed.

Lemma stdev_zero_iff_constant_witness :
  let body := [mkRow 98 0 70; mkRow 99 1 60; mkRow 98 0 71] in
  exists sm,
    summary body = Some sm /\
    (sample_stdev sm = 0 <->
     forall x y, In x (male_temps body) -> In y (male_temps body) -> x = y).
Proof.
  eexists. split; [reflexivity|].
  apply (stdev_zero_iff_constant [mkRow 98 0 70; mkRow 99 1 60; mkRow 98 0 71]).
  reflexivity.
Defined.

(** X4.  The mean of the summary lies between any two bounds of the
    temperatures of the sample. *)
Theorem mean_within_bounds body sm lo hi :
  summary body = Some sm ->
  (forall x, In x (male_temps body) -> lo <= x <= hi) ->
  lo <= sample_mean sm <= hi.
Proof.
  intros H Hb. destruct (summary_inv _ _ H) as (Hlen & _ & Hm & _ & _).
  pose proof (INR_len_pos _ Hlen) as Hp.
  destruct (Rsum_bounds lo hi _ Hb) as [Hl Hu].
  rewrite Hm. split.
  - apply Rmult_le_reg_r with (INR (length (male_temps body))); [exact Hp|].
    unfold Rdiv. rewrite Rmult_assoc, Rinv_l by lra. lra.
  - apply Rmult_le_reg_r with (INR (length (male_temps body))); [exact Hp|].
    unfold Rdiv. rewrite Rmult_assoc, Rinv_l by lra. lra.
Qed.

Lemma mean_within_bounds_witness :
  let body := [mkRow 97 0 70; mkRow 99 1 60; mkRow 98 0 71] in
  exists sm,
    summary body = Some sm /\
    (forall x, In x (male_temps body) -> 97 <= x <= 98) /\
    97 <= sample_mean sm <= 98.
Proof.
  assert (Hb : forall x,
             In x (male_temps [mkRow 97 0 70; mkRow 99 1 60; mkRow 98 0 71]) ->
             97 <= x <= 98).
  { intros x Hx. cbn in Hx. destruct Hx as [<- | [<- | []]]; lra. }
  eexists. split; [reflexivity|]. split; [exact Hb|].
  apply (mean_within_bounds [mkRow 97 0 70; mkRow 99 1 60; mkRow 98 0 71] _ 97 98);
    [reflexivity | exact Hb].
Defined.

(** ** From the table to the test *)

(** X6.  A change of the unit of temperature, [temp -> a * temp + b] with
    [a > 0] on every row and on the hypothesised mean, changes nothing in
    what the summary cell followed by a test cell returns. *)
Theorem unit_conversion_invariance a b d tl body mu alpha :
  0 < a ->
  run d tl (convert a b body) (a * mu + b) alpha = run d tl body mu alpha.
Proof.
  intro Ha. unfold run.
  assert (Hlen : length (male_temps (convert a b body)) = length (male_temps body)).
  { rewrite male_temps_convert. apply length_map. }
  destruct (Nat.lt_ge_cases (length (male_temps body)) 2) as [Hlt | Hge].
  - rewrite !summary_none by lia. reflexivity.
  - rewrite !summary_some by lia.
    cbn [sample_size sample_mean sample_stdev].
    rewrite Hlen.
    pose proof (INR_len_pos _ Hge) as Hp. pose proof (INR_pred_pos _ Hge) as Hp1.
    set (xs := male_temps body) in *.
    set (m := Rsum xs / INR (length xs)).
    assert (Hm : Rsum (male_temps (convert a b body)) / INR (length xs) = a * m + b).
    { rewrite male_temps_convert. fold xs. rewrite Rsum_affine. unfold m. field. lra. }
    rewrite Hm.
    assert (Hs : sqrt (sq_dev (a * m + b) (male_temps (convert a b body))
                       / INR (length xs - 1))
                 = a * sqrt (sq_dev m xs / INR (length xs - 1))).
    { rewrite male_temps_convert. fold xs. rewrite sq_dev_affine.
      replace (a ^ 2 * sq_dev m xs / INR (length xs - 1))
        with (a * a * (sq_dev m xs / INR (length xs - 1))) by (field; lra).
      rewrite sqrt_mult_alt by nra.
      rewrite sqrt_square by lra. reflexivity. }
    rewrite Hs. apply evaluate_convert. exact Ha.
Qed.

Lemma unit_conversion_invariance_witness :
  let body := [mkRow 97 0 70; mkRow 99 1 60; mkRow 98 0 71] in
  0 < 5 / 9 /\
  run StudentT TwoSided (convert (5 / 9) (- (160 / 9)) body)
      (5 / 9 * 98.6 + - (160 / 9)) 0.05
  = run StudentT TwoSided body 98.6 0.05.
Proof.
  split; [lra|].
  apply (unit_conversion_invariance (5 / 9) (- (160 / 9)) StudentT TwoSided
           [mkRow 97 0 70; mkRow 99 1 60; mkRow 98 0 71] 98.6 0.05).
  lra.
Defined.

(** X7.  When the summary cell followed by a test cell returns a result,
    its p-value is a number of [[0, 1]] exactly when some temperature of
    the sample differs from the hypothesised mean (and [nan]
    otherwise). *)
Theorem run_p_value_range d tl body mu alpha r :
  run d tl body mu alpha = Some r ->
  (in_unit_interval (p_value r) <->
   exists x, In x (male_temps body) /\ x <> mu) /\
  ((forall x, In x (male_temps body) -> x = mu) -> p_value r = NaN).
Proof.
  unfold run. intro H.
  destruct (summary body) as [sm|] eqn:E; [|discriminate].
  destruct (summary_inv _ _ E) as (Hlen & Hn & _ & _ & _).
  assert (Hn1 : (1 < sample_size sm)%Z) by lia.
  assert (Hdeg : (forall x, In x (male_temps body) -> x = mu) -> p_value r = NaN).
  { intro Hall. apply (proj2 (summary_degenerate_iff _ _ mu E)) in Hall.
    destruct Hall as [Hs Hm]. rewrite Hs, Hm in H.
    apply (p_value_degenerate _ _ _ _ _ _ H). }
  split; [|exact Hdeg]. split.
  - intro Hin.
    destruct (all_or_exists_other mu (male_temps body)) as [Hall | Hex]; [|exact Hex].
    rewrite (Hdeg Hall) in Hin. destruct Hin.
  - intros (x & Hx & Hne).
    apply (p_value_regular d tl (sample_size sm) (sample_mean sm) (sample_stdev sm)
             mu alpha r Hn1); [|exact H].
    apply t_score_not_nan; [lia|].
    intro Hd. apply Hne.
    apply (proj1 (summary_degenerate_iff _ _ mu E) Hd). exact Hx.
Qed.

Lemma run_p_value_range_witness :
  let body := [mkRow 97 0 70; mkRow 99 1 60; mkRow 98 0 71] in
  exists r,
    run StudentT RightTailed body 98.6 0.05 = Some r /\
    (in_unit_interval (p_value r) <->
     exists x, In x (male_temps body) /\ x <> 98.6) /\
    ((forall x, In x (male_temps body) -> x = 98.6) -> p_value r = NaN).
Proof.
  eexists. split; [reflexivity|].
  apply (run_p_value_range StudentT RightTailed
           [mkRow 97 0 70; mkRow 99 1 60; mkRow 98 0 71] 98.6 0.05).
  reflexivity.
Defined.

(** ** The tails *)

(** X8.  The left-tailed test of a sample is the right-tailed test of the
    sample mirrored about the hypothesised mean: same p-value, opposite
    score. *)
Theorem left_tail_is_mirrored_right_tail n m s mu alpha :
  p_value (t_test_left_tail n m s mu alpha)
  = p_value (t_test_right_tail n (2 * mu - m) s mu alpha) /\
  score (t_test_left_tail n m s mu alpha)
  = fneg (score (t_test_right_tail n (2 * mu - m) s mu alpha)).
Proof.
  unfold t_test_left_tail, t_test_right_tail. cbn [p_value score].
  rewrite t_score_mirror, fneg_involutive. split; reflexivity.
Qed.

(** X9.  For [n > 1], unless the standard deviation is 0 with the mean on
    the hypothesised mean, the left-tailed and the right-tailed p-values
    add up to 1 and the two-sided p-value of the t-test is twice the smaller
    of the two. *)
Theorem tails_complement_and_two_sided n m s mu alpha :
  (1 < n)%Z -> ~ (s = 0 /\ m = mu) ->
  exists pl pr,
    p_value (t_test_left_tail n m s mu alpha) = Fin pl /\
    p_value (t_test_right_tail n m s mu alpha) = Fin pr /\
    pl + pr = 1 /\
    p_value (t_test_two_sided n m s mu alpha) = Fin (2 * Rmin pl pr).
Proof.
  intros Hn Hdeg.
  assert (Hsc : t_score n m s mu <> NaN) by (apply t_score_not_nan; [lia | exact Hdeg]).
  destruct (one_sided_pair (t_score n m s mu) (n - 1)) as (pl & pr & Hl & Hr & Hsum & _ & H2);
    [lia | exact Hsc |].
  exists pl, pr. unfold t_test_left_tail, t_test_right_tail, t_test_two_sided.
  cbn [p_value]. repeat split; assumption.
Qed.

Lemma tails_complement_and_two_sided_witness :
  (1 < 65)%Z /\ ~ (1 = 0 /\ 98 = 98.6) /\
  exists pl pr,
    p_value (t_test_left_tail 65 98 1 98.6 0.05) = Fin pl /\
    p_value (t_test_right_tail 65 98 1 98.6 0.05) = Fin pr /\
    pl + pr = 1 /\
    p_value (t_test_two_sided 65 98 1 98.6 0.05) = Fin (2 * Rmin pl pr).
Proof.
  split; [lia|]. split; [lra|].
  apply (tails_complement_and_two_sided 65 98 1 98.6 0.05); [lia | lra].
Defined.

(** ** The two-sided p-values as functions of the sample *)

(** X11.  For [n > 1] and [s > 0] the two-sided p-value of the t-test
    strictly decreases as the mean moves away from the hypothesised mean,
    on either side. *)
Theorem t_two_sided_decreasing n m1 m2 s mu alpha :
  (1 < n)%Z -> 0 < s -> Rabs (m1 - mu) < Rabs (m2 - mu) ->
  exists p1 p2,
    p_value (t_test_two_sided n m1 s mu alpha) = Fin p1 /\
    p_value (t_test_two_sided n m2 s mu alpha) = Fin p2 /\
    p2 < p1.
Proof.
  intros Hn Hs Hlt.
  destruct (to_nat_succ (n - 1)) as [k Hk]; [lia|].
  exists (2 * student_sf (S k) (Rabs ((m1 - mu) / (s / sqrt (IZR n))))),
         (2 * student_sf (S k) (Rabs ((m2 - mu) / (s / sqrt (IZR n))))).
  unfold t_test_two_sided. cbn [p_value].
  rewrite !t_score_regular by (lia || lra). cbn [np_abs].
  rewrite !t_sf_fin, Hk by lia. cbn [fmul].
  split; [reflexivity|]. split; [reflexivity|].
  pose proof (student_sf_decreasing k _ _ (abs_score_lt n m1 m2 s mu ltac:(lia) Hs Hlt)).
  lra.
Qed.

Lemma t_two_sided_decreasing_witness :
  (1 < 65)%Z /\ 0 < 1 /\ Rabs (98.6 - 98.6) < Rabs (98 - 98.6) /\
  exists p1 p2,
    p_value (t_test_two_sided 65 98.6 1 98.6 0.05) = Fin p1 /\
    p_value (t_test_two_sided 65 98 1 98.6 0.05) = Fin p2 /\
    p2 < p1.
Proof.
  assert (H : Rabs (98.6 - 98.6) < Rabs (98 - 98.6)).
  { rewrite (Rabs_left (98 - 98.6)) by lra.
    replace (98.6 - 98.6) with 0 by lra. rewrite Rabs_R0. lra. }
  split; [lia|]. split; [lra|]. split; [exact H|].
  apply (t_two_sided_decreasing 65 98.6 98 1 98.6 0.05); [lia | lra | exact H].
Defined.

(** X12.  For [n > 0] and [s > 0] the two-sided p-value of the z-test
    does not increase as the mean moves away from the hypothesised
    mean. *)
Theorem z_two_sided_nonincreasing n m1 m2 s mu alpha :
  (0 < n)%Z -> 0 < s -> Rabs (m1 - mu) <= Rabs (m2 - mu) ->
  exists p1 p2,
    p_value (z_test_two_sided n m1 s mu alpha) = Fin p1 /\
    p_value (z_test_two_sided n m2 s mu alpha) = Fin p2 /\
    p2 <= p1.
Proof.
  intros Hn Hs Hle.
  exists (2 * normal_pdf (Rabs ((m1 - mu) / (s / sqrt (IZR n))))),
         (2 * normal_pdf (Rabs ((m2 - mu) / (s / sqrt (IZR n))))).
  unfold z_test_two_sided. cbn [p_value].
  change (z_score n m1 s mu) with (t_score n m1 s mu).
  change (z_score n m2 s mu) with (t_score n m2 s mu).
  rewrite !t_score_regular by (lia || lra). cbn [np_abs norm_pdf fmul].
  split; [reflexivity|]. split; [reflexivity|].
  destruct Hle as [Hlt | Heq].
  - pose proof (normal_pdf_decreasing _ _ (Rabs_pos _)
                  (abs_score_lt n m1 m2 s mu Hn Hs Hlt)).
    lra.
  - unfold Rdiv at 1 3. rewrite !Rabs_mult, Heq. lra.
Qed.

Lemma z_two_sided_nonincreasing_witness :
  (0 < 65)%Z /\ 0 < 1 /\ Rabs (98.6 - 98.6) <= Rabs (98 - 98.6) /\
  exists p1 p2,
    p_value (z_test_two_sided 65 98.6 1 98.6 0.05) = Fin p1 /\
    p_value (z_test_two_sided 65 98 1 98.6 0.05) = Fin p2 /\
    p2 <= p1.
Proof.
  assert (H : Rabs (98.6 - 98.6) <= Rabs (98 - 98.6)).
  { rewrite (Rabs_left (98 - 98.6)) by lra.
    replace (98.6 - 98.6) with 0 by lra. rewrite Rabs_R0. lra. }
  split; [lia|]. split; [lra|]. split; [exact H|].
  apply (z_two_sided_nonincreasing 65 98.6 98 1 98.6 0.05); [lia | lra | exact H].
Defined.

(** X13.  For [n > 1] and [s > 0] the two-sided t-test returns the
    p-value 1 exactly when the mean is the hypothesised mean, and the
    two-sided z-test returns its largest value [2 * normal_pdf 0] exactly
    then. *)
Theorem two_sided_p_value_maximal_iff n m s mu alpha :
  (1 < n)%Z -> 0 < s ->
  (p_value (t_test_two_sided n m s mu alpha) = Fin 1 <-> m = mu) /\
  (p_value (z_test_two_sided n m s mu alpha) = Fin (2 * normal_pdf 0) <-> m = mu).
Proof.
  intros Hn Hs.
  destruct (to_nat_succ (n - 1)) as [k Hk]; [lia|].
  assert (Hn0 : (0 < n)%Z) by lia.
  pose proof (abs_score_zero n m s mu Hn0 Hs) as Hz.
  set (x := Rabs ((m - mu) / (s / sqrt (IZR n)))) in *.
  assert (Hx : 0 <= x) by apply Rabs_pos.
  unfold t_test_two_sided, z_test_two_sided. cbn [p_value].
  change (z_score n m s mu) with (t_score n m s mu).
  rewrite !t_score_regular by (lia || lra). cbn [np_abs norm_pdf].
  rewrite t_sf_fin, Hk by lia. cbn [fmul]. fold x.
  split.
  - rewrite <- Hz, <- (student_sf_half_iff k x Hx). split.
    + intro H. injection H as H. lra.
    + intros ->. f_equal. lra.
  - rewrite <- Hz, <- (normal_pdf_max_iff x Hx). split.
    + intro H. injection H as H. lra.
    + intros ->. reflexivity.
Qed.

Lemma two_sided_p_value_maximal_iff_witness :
  (1 < 65)%Z /\ 0 < 1 /\
  (p_value (t_test_two_sided 65 98 1 98.6 0.05) = Fin 1 <-> 98 = 98.6) /\
  (p_value (z_test_two_sided 65 98 1 98.6 0.05) = Fin (2 * normal_pdf 0)
   <-> 98 = 98.6).
Proof.
  split; [lia|]. split; [lra|].
  apply (two_sided_p_value_maximal_iff 65 98 1 98.6 0.05); [lia | lra].
Defined.

(** X14.  For [n > 1], a zero standard deviation and a mean off the
    hypothesised mean, the score is the infinity of the sign of
    [m - mu]; the two-sided p-value of either test is exactly 0, hence at
    most every [alpha >= 0]; and the right-tailed p-value is 0 above the
    hypothesised mean and 1 below it. *)
Theorem zero_stdev_off_target n m mu alpha :
  (1 < n)%Z -> m <> mu ->
  score (t_test_two_sided n m 0 mu alpha) = (if Rlt_dec mu m then PInf else NInf) /\
  p_value (t_test_two_sided n m 0 mu alpha) = Fin 0 /\
  p_value (z_test_two_sided n m 0 mu alpha) = Fin 0 /\
  p_value (t_test_right_tail n m 0 mu alpha)
  = (if Rlt_dec mu m then Fin 0 else Fin 1) /\
  (0 <= alpha ->
   fleb (p_value (t_test_two_sided n m 0 mu alpha)) (Fin alpha) = true /\
   fleb (p_value (z_test_two_sided n m 0 mu alpha)) (Fin alpha) = true).
Proof.
  intros Hn Hne.
  assert (Hn0 : (0 < n)%Z) by lia.
  assert (Hsc : t_score n m 0 mu = (if Rlt_dec mu m then PInf else NInf)).
  { unfold t_score. rewrite err_regular by exact Hn0.
    replace (0 / sqrt (IZR n)) with 0 by (unfold Rdiv; ring).
    destruct (Rlt_dec mu m) as [Hgt | Hle].
    - apply fdiv_pos_zero. lra.
    - apply fdiv_neg_zero. destruct (Rtotal_order m mu) as [H | [H | H]];
        [lra | contradiction | lra]. }
  assert (Hp : p_value (t_test_two_sided n m 0 mu alpha) = Fin 0 /\
               p_value (z_test_two_sided n m 0 mu alpha) = Fin 0).
  { unfold t_test_two_sided, z_test_two_sided. cbn [p_value].
    change (z_score n m 0 mu) with (t_score n m 0 mu). rewrite Hsc.
    destruct (Rlt_dec mu m); cbn [np_abs norm_pdf]; unfold t_sf;
      (destruct (Z.leb_spec (n - 1) 0); [lia|]); cbn [fmul];
      split; f_equal; ring. }
  destruct Hp as [Ht Hz].
  split; [exact Hsc|]. split; [exact Ht|]. split; [exact Hz|]. split.
  - unfold t_test_right_tail. cbn [p_value]. rewrite Hsc.
    destruct (Rlt_dec mu m); unfold t_sf;
      (destruct (Z.leb_spec (n - 1) 0); [lia|]); reflexivity.
  - intro Ha. rewrite Ht, Hz. split; apply fleb_fin_true; exact Ha.
Qed.

Lemma zero_stdev_off_target_witness :
  (1 < 65)%Z /\ 98 <> 98.6 /\
  score (t_test_two_sided 65 98 0 98.6 0.05)
  = (if Rlt_dec 98.6 98 then PInf else NInf) /\
  p_value (t_test_two_sided 65 98 0 98.6 0.05) = Fin 0 /\
  p_value (z_test_two_sided 65 98 0 98.6 0.05) = Fin 0 /\
  p_value (t_test_right_tail 65 98 0 98.6 0.05)
  = (if Rlt_dec 98.6 98 then Fin 0 else Fin 1) /\
  (0 <= 0.05 ->
   fleb (p_value (t_test_two_sided 65 98 0 98.6 0.05)) (Fin 0.05) = true /\
   fleb (p_value (z_test_two_sided 65 98 0 98.6 0.05)) (Fin 0.05) = true).
Proof.
  split; [lia|]. split; [lra|].
  apply (zero_stdev_off_target 65 98 98.6 0.05); [lia | lra].
Defined.

(** ** Failure of the evaluation *)

(** C8, counterexample.  The significance level is not validated: with
    [alpha = 1.5] the two-sided t-test on the notebook's sample returns
    its result, with the p-value [3.08384e-07] and the alpha-value 1.5. *)
Lemma alpha_not_validated_counterexample :
  exists p,
    evaluate StudentT TwoSided sample_n sample_m sample_s sample_mu 1.5
    = Some (mkReport (Fin sample_t) (Fin p) 1.5) /\
    Rabs (p - 3.08384e-7) < 5e-13.
Proof.
  pose proof sample_t_neg as Hneg.
  pose proof sample_sf_bounds as [Hpl Hpu].
  exists (2 * student_sf 64 (- sample_t)). split.
  - cbn [evaluate]. unfold t_test_two_sided. rewrite sample_score.
    cbn [np_abs]. rewrite t_sf_fin by (unfold sample_n; lia).
    rewrite Rabs_left by exact Hneg. reflexivity.
  - apply Rabs_def1; lra.
Qed.

(** C8, amended.  From the table to a test, the evaluation fails (an
    exception of the summary cell, no result) exactly when at most one row
    enters the sample, [n <= 1].  When it returns, [n > 1] and the
    standard deviation is not negative, the score is the one of that
    summary, and the alpha-value is computed from [alpha] as given,
    whatever [alpha] is: the significance level is not validated. *)
Theorem run_fails_iff_small_sample d tl body mu alpha :
  d = StudentT \/ tl = TwoSided ->
  (run d tl body mu alpha = None <-> (length (male_temps body) <= 1)%nat) /\
  (forall r,
      run d tl body mu alpha = Some r ->
      exists sm,
        summary body = Some sm /\
        (1 < sample_size sm)%Z /\
        sample_size sm = Z.of_nat (length (male_temps body)) /\
        0 <= sample_stdev sm /\
        score r = t_score (sample_size sm) (sample_mean sm) (sample_stdev sm) mu /\
        alpha_value r = threshold tl alpha).
Proof.
  intro Hsup.
  assert (Hex : forall n m s, exists r, evaluate d tl n m s mu alpha = Some r).
  { intros n m s. destruct d, tl; cbn [evaluate]; eauto; destruct Hsup; discriminate. }
  split.
  - unfold run. split.
    + intro H.
      destruct (Nat.lt_ge_cases (length (male_temps body)) 2) as [Hlt | Hge]; [lia|].
      rewrite summary_some in H by exact Hge.
      cbn [sample_size sample_mean sample_stdev] in H.
      match type of H with
      | evaluate d tl ?n ?m ?s mu alpha = None =>
          destruct (Hex n m s) as [r Hr]; rewrite Hr in H; discriminate
      end.
    + intro H. rewrite summary_none by lia. reflexivity.
  - intros r H. unfold run in H.
    destruct (summary body) as [sm|] eqn:E; [|discriminate].
    destruct (summary_inv _ _ E) as (Hlen & Hn & _ & Hs & _).
    destruct (evaluate_cases _ _ _ _ _ _ _ _ H) as (Hsc & Ha & _).
    exists sm. split; [reflexivity|]. split; [lia|]. split; [exact Hn|].
    split; [rewrite Hs; apply sqrt_pos|]. split; [exact Hsc | exact Ha].
Qed.

Lemma run_fails_iff_small_sample_witness :
  let body := [mkRow 97 0 70; mkRow 99 1 60; mkRow 98 0 71] in
  (StudentT = StudentT \/ TwoSided = TwoSided) /\
  (run StudentT TwoSided body 98.6 1.5 = None
   <-> (length (male_temps body) <= 1)%nat) /\
  (forall r,
      run StudentT TwoSided body 98.6 1.5 = Some r ->
      exists sm,
        summary body = Some sm /\
        (1 < sample_size sm)%Z /\
        sample_size sm = Z.of_nat (length (male_temps body)) /\
        0 <= sample_stdev sm /\
        score r = t_score (sample_size sm) (sample_mean sm) (sample_stdev sm) 98.6 /\
        alpha_value r = threshold TwoSided 1.5).
Proof.
  split; [left; reflexivity|].
  apply (run_fails_iff_small_sample StudentT TwoSided
           [mkRow 97 0 70; mkRow 99 1 60; mkRow 98 0 71] 98.6 1.5).
  left. reflexivity.
Defined.
